(** * Slack archiver: a shallow embedding of [slack_archiver.py]

    The SQLite file is modelled as two tables of rows kept in rowid order,
    the Slack web client as a record of response functions, and every
    [with sqlite3.connect(...) as conn] block as a transaction over a working
    copy of the tables that is committed on normal exit and rolled back when
    an exception leaves the block. *)

From Stdlib Require Import List String Ascii ZArith Lia Bool Arith.
From Stdlib Require Import Sorting.Sorted Sorting.Permutation.
From Stdlib Require Import Structures.OrderedTypeEx.
Import ListNotations.

Local Open Scope string_scope.
Local Open Scope list_scope.

(** ** Tables ([setup_database]) *)

(** [channels(channel_id TEXT PRIMARY KEY, channel_name TEXT,
    last_archived_timestamp TEXT)]; the last column is nullable. *)
Record channel_row := mk_channel {
  channel_id : string;
  channel_name : string;
  last_archived_timestamp : option string
}.

(** [messages(message_id TEXT PRIMARY KEY, channel_id TEXT, timestamp TEXT,
    user TEXT, text TEXT, FOREIGN KEY(channel_id) ...)].  SQLite does not
    enforce the foreign key unless the pragma is switched on, which the
    program never does. *)
Record message_row := mk_message {
  message_id : string;
  msg_channel_id : string;
  timestamp : string;
  user : string;
  text : string
}.

Record database := mk_db {
  channels : list channel_row;
  messages : list message_row
}.

(** The state of a fresh database file after [setup_database]. *)
Definition setup_database : database := mk_db [] [].

(** ** The Slack client *)

(** One element of [messages_result['messages']]: [ts] is always present,
    [user] and [text] are read with [dict.get] and a default. *)
Record slack_message := mk_slack_message {
  ts : string;
  m_user : option string;
  m_text : option string
}.

Inductive exn :=
| SlackApiError (reason : string)
| SqliteError
| OverflowError.

Definition result (A : Type) : Type := (exn + A)%type.

(** [conversations_info channel] answers with [channel_info['channel']['name']];
    [conversations_history channel oldest] answers with the list under
    ['messages'] (the page size is the constant 50 of the source).  Either
    call may raise [SlackApiError]. *)
Record slack_client := mk_client {
  conversations_info : string -> string + string;
  conversations_history : string -> string -> string + list slack_message
}.

(** ** Connections and transactions *)

(** [durable] is what is on disk, [work] what the open connection sees,
    [in_txn] whether a write opened a transaction that is not yet committed,
    [executed] counts the write statements and commits issued so far.
    [faults n] says that the [n]-th of them raises a storage error. *)
Record conn := mk_conn {
  durable : database;
  work : database;
  in_txn : bool;
  executed : nat
}.

Definition Sql (A : Type) : Type := (nat -> bool) -> conn -> result A * conn.

Definition ret {A} (a : A) : Sql A := fun _ c => (inr a, c).

Definition bind {A B} (m : Sql A) (k : A -> Sql B) : Sql B :=
  fun faults c =>
    match m faults c with
    | (inl e, c') => (inl e, c')
    | (inr a, c') => k a faults c'
    end.

Definition raise {A} (e : exn) : Sql A := fun _ c => (inl e, c).

Notation "x <- m ;; k" := (bind m (fun x => k))
  (at level 61, m at next level, right associativity).
Notation "m ;;; k" := (bind m (fun _ => k))
  (at level 61, right associativity).

(** [try: ... except SlackApiError as e: print(...)]: only Slack errors are
    handled, every other exception keeps propagating. *)
Definition try_except_slack (m : Sql unit) : Sql unit :=
  fun faults c =>
    match m faults c with
    | (inl (SlackApiError _), c') => (inr tt, c')
    | r => r
    end.

(** A SELECT: reads the working copy. *)
Definition query {A} (f : database -> A) : Sql A :=
  fun _ c => (inr (f (work c)), c).

(** An INSERT or UPDATE: opens a transaction if none is open. *)
Definition execute (f : database -> database) : Sql unit :=
  fun faults c =>
    if faults (executed c)
    then (inl SqliteError,
          mk_conn (durable c) (work c) (in_txn c) (S (executed c)))
    else (inr tt, mk_conn (durable c) (f (work c)) true (S (executed c))).

(** [conn.commit()] *)
Definition commit : Sql unit :=
  fun faults c =>
    if in_txn c then
      if faults (executed c)
      then (inl SqliteError,
            mk_conn (durable c) (work c) true (S (executed c)))
      else (inr tt, mk_conn (work c) (work c) false (S (executed c)))
    else (inr tt, c).

(** [with sqlite3.connect(db_path) as conn: body]: commit on normal exit,
    roll back and re-raise when an exception leaves the block.  The result
    is the outcome together with the database left on disk. *)
Definition with_connection {A} (body : Sql A) (faults : nat -> bool)
    (d : database) : result A * database :=
  match (x <- body ;; commit ;;; ret x) faults (mk_conn d d false 0) with
  | (r, c) => (r, durable c)
  end.

(** ** Statements *)

Definition has_message_id (id : string) (rows : list message_row) : bool :=
  existsb (fun r => message_id r =? id) rows.

(** [INSERT OR IGNORE INTO messages ...]: a row whose primary key
    [message_id] is already present is dropped. *)
Definition insert_or_ignore_message (r : message_row) (d : database) : database :=
  if has_message_id (message_id r) (messages d) then d
  else mk_db (channels d) (messages d ++ [r]).

(** [INSERT OR REPLACE INTO channels ...]: a row with the same primary key is
    deleted before the new one is inserted. *)
Definition insert_or_replace_channel (r : channel_row) (d : database) : database :=
  mk_db (filter (fun r' => negb (channel_id r' =? channel_id r)) (channels d) ++ [r])
        (messages d).

(** [UPDATE channels SET last_archived_timestamp = ? WHERE channel_id = ?] *)
Definition update_last_archived (t : string) (ch : string) (d : database) : database :=
  mk_db (map (fun r => if channel_id r =? ch
                       then mk_channel (channel_id r) (channel_name r) (Some t)
                       else r) (channels d))
        (messages d).

(** [SELECT last_archived_timestamp FROM channels WHERE channel_id = ?]
    followed by [fetchone()]: [None] when there is no row, [Some c] with the
    (nullable) column of the first row otherwise. *)
Definition select_last_archived (ch : string) (d : database) : option (option string) :=
  match find (fun r => channel_id r =? ch) (channels d) with
  | Some r => Some (last_archived_timestamp r)
  | None => None
  end.

(** ** [add_channel_to_archive] *)

Definition add_channel_to_archive (cl : slack_client) (faults : nat -> bool)
    (ch : string) (d : database) : result unit * database :=
  match conversations_info cl ch with
  | inl _ => (inr tt, d)
  | inr name =>
      with_connection
        (execute (insert_or_replace_channel (mk_channel ch name None)) ;;;
         commit)
        faults d
  end.

(** ** [archive_channel_messages] *)

(** [last_timestamp = result[0] if result else None] *)
Definition last_timestamp_of (res : option (option string)) : option string :=
  match res with
  | Some c => c
  | None => None
  end.

(** [last_timestamp or '0']: [None] and the empty string are both falsy. *)
Definition oldest_of (last : option string) : string :=
  match last with
  | Some s => if s =? "" then "0" else s
  | None => "0"
  end.

Definition or_default (o : option string) (dflt : string) : string :=
  match o with Some s => s | None => dflt end.

Definition row_of_message (ch : string) (m : slack_message) : message_row :=
  mk_message (ts m) ch (ts m) (or_default (m_user m) "N/A") (or_default (m_text m) "").

Fixpoint insert_messages (ch : string) (page : list slack_message) : Sql unit :=
  match page with
  | [] => ret tt
  | m :: rest =>
      execute (insert_or_ignore_message (row_of_message ch m)) ;;;
      insert_messages ch rest
  end.

Definition archive_body (cl : slack_client) (ch : string) : Sql unit :=
  res <- query (select_last_archived ch) ;;
  let last_timestamp := last_timestamp_of res in
  try_except_slack
    (match conversations_history cl ch (oldest_of last_timestamp) with
     | inl e => raise (SlackApiError e)
     | inr page =>
         insert_messages ch page ;;;
         (match page with
          | m0 :: _ => execute (update_last_archived (ts m0) ch)
          | [] => ret tt
          end) ;;;
         commit
     end).

Definition archive_channel_messages (cl : slack_client) (faults : nat -> bool)
    (ch : string) (d : database) : result unit * database :=
  with_connection (archive_body cl ch) faults d.

(** ** [get_channel_messages] *)

(** The dictionaries built from the fetched rows. *)
Record message_dict := mk_dict {
  d_message_id : string;
  d_timestamp : string;
  d_user : string;
  d_text : string
}.

Definition dict_of_row (r : message_row) : message_dict :=
  mk_dict (message_id r) (timestamp r) (user r) (text r).

(** [ORDER BY timestamp] on a TEXT column compares byte-wise.  Rows that
    compare equal keep their rowid order here. *)
Fixpoint insert_sorted (r : message_row) (l : list message_row) : list message_row :=
  match l with
  | [] => [r]
  | r' :: l' =>
      if (timestamp r' <=? timestamp r)%string then r' :: insert_sorted r l'
      else r :: l
  end.

Definition order_by_timestamp (l : list message_row) : list message_row :=
  fold_left (fun acc r => insert_sorted r acc) l [].

(** [LIMIT ? OFFSET ?]: a negative limit means no bound, a negative offset
    counts as zero. *)
Definition limit_offset {A} (limit offset : Z) (l : list A) : list A :=
  let l' := skipn (Z.to_nat offset) l in
  if (limit <? 0)%Z then l' else firstn (Z.to_nat limit) l'.

(** Python integers bound to a statement must fit a 64-bit SQLite INTEGER. *)
Definition fits_int64 (z : Z) : bool :=
  ((- 2 ^ 63 <=? z) && (z <? 2 ^ 63))%Z.

Definition select_channel_messages (ch : string) (d : database) : list message_row :=
  order_by_timestamp (filter (fun r => msg_channel_id r =? ch) (messages d)).

Definition get_channel_messages (d : database) (ch : string) (limit offset : Z)
    : result (list message_dict) :=
  if fits_int64 limit && fits_int64 offset
  then inr (map dict_of_row (limit_offset limit offset (select_channel_messages ch d)))
  else inl OverflowError.

(** ** [schedule_archiving] *)

(** Ascending byte-wise order of TEXT keys, as an index holds them. *)
Fixpoint insert_id (s : string) (l : list string) : list string :=
  match l with
  | [] => [s]
  | x :: l' => if (s <=? x)%string then s :: l else x :: insert_id s l'
  end.

Definition sort_ids (l : list string) : list string :=
  fold_right insert_id [] l.

(** [SELECT channel_id FROM channels]: the column is the primary key and
    SQLite answers the query from the index of that key, so the ids come in
    ascending byte-wise order, whatever the order of registration. *)
Definition select_channel_ids (d : database) : list string :=
  sort_ids (map channel_id (channels d)).

(** The [for] loop: the first exception that leaves
    [archive_channel_messages] ends the loop.  [faults ch] is the fault
    schedule of the connection opened for channel [ch]. *)
Fixpoint archive_all (cl : slack_client) (faults : string -> nat -> bool)
    (chs : list string) (d : database) : result unit * database :=
  match chs with
  | [] => (inr tt, d)
  | ch :: rest =>
      match archive_channel_messages cl (faults ch) ch d with
      | (inl e, d') => (inl e, d')
      | (inr _, d') => archive_all cl faults rest d'
      end
  end.

Definition schedule_archiving (cl : slack_client) (faults : string -> nat -> bool)
    (d : database) : result unit * database :=
  archive_all cl faults (select_channel_ids d) d.

(** ** Reachable databases *)

Inductive reachable : database -> Prop :=
| reach_setup : reachable setup_database
| reach_add cl faults ch d :
    reachable d -> reachable (snd (add_channel_to_archive cl faults ch d))
| reach_archive cl faults ch d :
    reachable d -> reachable (snd (archive_channel_messages cl faults ch d)).

Definition no_faults : nat -> bool := fun _ => false.

(** ** What a committed page amounts to *)

(** The effect of the INSERT loop on the tables. *)
Definition store_page (ch : string) (page : list slack_message) (d : database) : database :=
  fold_left (fun acc m => insert_or_ignore_message (row_of_message ch m) acc) page d.

(** The effect of the whole [try] body once it is committed. *)
Definition committed_page (ch : string) (page : list slack_message) (d : database) : database :=
  match page with
  | [] => d
  | m0 :: _ => update_last_archived (ts m0) ch (store_page ch page d)
  end.

(** The rows a run of INSERT OR IGNORE statements for [page] appends, told
    from the ids alone: [seen] lists the [message_id]s present so far, and a
    message gets a row exactly when its [ts] is not among them. *)
Fixpoint fresh_rows (ch : string) (seen : list string) (page : list slack_message)
    : list message_row :=
  match page with
  | [] => []
  | m :: rest =>
      if existsb (String.eqb (ts m)) seen then fresh_rows ch seen rest
      else mk_message (ts m) ch (ts m)
             (or_default (m_user m) "N/A") (or_default (m_text m) "")
           :: fresh_rows ch (seen ++ [ts m]) rest
  end.

(** Does one of the statements numbered [start .. start + n - 1] fail? *)
Definition fault_within (faults : nat -> bool) (start n : nat) : bool :=
  existsb faults (seq start n).

(** The cursor column as [archive_channel_messages] reads it. *)
Definition cursor_of (ch : string) (d : database) : option string :=
  last_timestamp_of (select_last_archived ch d).

(** ** Notions used in the statements *)

(** What every reachable database satisfies: the two primary keys are keys,
    and the [timestamp] column repeats [message_id] (both are written from
    [message['ts']]). *)
Record db_invariant (d : database) : Prop := mk_inv {
  inv_message_ids : NoDup (map message_id (messages d));
  inv_timestamps : Forall (fun r => timestamp r = message_id r) (messages d);
  inv_channel_ids : NoDup (map channel_id (channels d))
}.

(** The exclusive lower bound a fetch from cursor [c] asks for. *)
Definition after_cursor (c : option string) (t : string) : bool :=
  (oldest_of c <? t)%string.

(** The cursor row after a committed page, given the row before it. *)
Definition cursor_after (old : option (option string)) (page : list slack_message)
    : option (option string) :=
  match old, page with
  | Some _, m0 :: _ => Some (Some (ts m0))
  | c, _ => c
  end.

(** Strictly ascending in the [timestamp] column. *)
Definition ts_lt (a b : message_row) : Prop :=
  (timestamp a <? timestamp b)%string = true.

(** Position ascending, ties on equal positions by [message_id]. *)
Definition dict_le (a b : message_dict) : Prop :=
  (d_timestamp a <? d_timestamp b)%string = true \/
  (d_timestamp a = d_timestamp b /\ (d_message_id a <=? d_message_id b)%string = true).

(** Databases the program can get to from a given one: any sequence of
    registrations and archiving calls, with any client and any storage
    faults. *)
Inductive evolves : database -> database -> Prop :=
| evolves_refl d : evolves d d
| evolves_add cl faults ch d d' :
    evolves d d' -> evolves d (snd (add_channel_to_archive cl faults ch d'))
| evolves_archive cl faults ch d d' :
    evolves d d' -> evolves d (snd (archive_channel_messages cl faults ch d')).

(** ** Sample data *)

(** A message posted by user [U1] at position [t]. *)
Definition sample_message (t : string) : slack_message :=
  mk_slack_message t (Some "U1") (Some "hello").

(** A client that knows every channel under the name [general] and answers
    every history request with the same page. *)
Definition constant_client (page : list slack_message) : slack_client :=
  mk_client (fun _ => inr "general") (fun _ _ => inr page).

(** A client whose history call raises for the channels in [broken]. *)
Definition flaky_client (broken : list string) (page : list slack_message) : slack_client :=
  mk_client (fun _ => inr "general")
            (fun ch _ => if existsb (String.eqb ch) broken
                         then inl "channel_not_found" else inr page).

(** One registered channel [C1] that was never archived. *)
Definition one_channel_db : database :=
  mk_db [mk_channel "C1" "general" None] [].

(** The fault schedule in which exactly statement [n] fails. *)
Definition fault_at (n : nat) : nat -> bool := fun k => Nat.eqb k n.

(** The state in which channel [C1] has been registered and archived once. *)
Definition archived_once : database :=
  snd (archive_channel_messages (constant_client [sample_message "100"]) no_faults "C1"
         (snd (add_channel_to_archive (constant_client []) no_faults "C1" setup_database))).

(** Two registered channels, nothing archived yet. *)
Definition two_channel_db : database :=
  mk_db [mk_channel "A" "general" None; mk_channel "B" "random" None] [].

(** The same after one message was archived for channel [A]. *)
Definition archived_A : database :=
  snd (archive_channel_messages (constant_client [sample_message "100"]) no_faults "A"
         two_channel_db).

(** The state after a first run that fetched two messages for [C1]. *)
Definition archived_two : database :=
  snd (archive_channel_messages
         (constant_client [sample_message "200"; sample_message "100"])
         no_faults "C1" one_channel_db).

(** A client with nothing newer than ["200"] for [C1]. *)
Definition drained_client : slack_client :=
  mk_client (fun _ => inr "general")
            (fun _ oldest => if (oldest <? "200")%string
                             then inr [sample_message "200"; sample_message "100"]
                             else inr []).

(** The upstream of the two-page scenario: the first request, from the
    beginning, is answered with three messages ending at position ["100"];
    a request from ["100"] is answered with the one message at ["150"]. *)
Definition two_page_client : slack_client :=
  mk_client (fun _ => inr "general")
            (fun _ oldest =>
               if oldest =? "0"
               then inr [sample_message "080"; sample_message "090"; sample_message "100"]
               else if oldest =? "100" then inr [sample_message "150"]
               else inr []).

(** A client with a different page for each of the channels [A] and [B]. *)
Definition per_channel_client : slack_client :=
  mk_client (fun _ => inr "general")
            (fun ch _ => if ch =? "A" then inr [sample_message "100"]
                         else inr [sample_message "200"]).

(** * Proofs *)

Section Transactions.

Variable faults : nat -> bool.
Variable ch : string.

Lemma insert_messages_cons m rest c :
  insert_messages ch (m :: rest) faults c =
  if faults (executed c)
  then (inl SqliteError, mk_conn (durable c) (work c) (in_txn c) (S (executed c)))
  else insert_messages ch rest faults
         (mk_conn (durable c)
                  (insert_or_ignore_message (row_of_message ch m) (work c))
                  true (S (executed c))).
Proof.
  cbn [insert_messages]. unfold bind at 1, execute at 1.
  now destruct (faults (executed c)).
Qed.

Lemma insert_messages_run page c :
  (fault_within faults (executed c) (List.length page) = true /\
   exists c', insert_messages ch page faults c = (inl SqliteError, c') /\
              durable c' = durable c)
  \/
  (fault_within faults (executed c) (List.length page) = false /\
   insert_messages ch page faults c =
     (inr tt, mk_conn (durable c) (store_page ch page (work c))
                      (match page with [] => in_txn c | _ => true end)
                      (executed c + List.length page))).
Proof.
  revert c. induction page as [|m rest IH]; intros c.
  - right. split; [reflexivity|]. cbn. rewrite Nat.add_0_r. now destruct c.
  - rewrite insert_messages_cons.
    cbn [List.length fault_within seq existsb].
    destruct (faults (executed c)) eqn:F.
    + left. split; [reflexivity|]. eexists. split; [reflexivity|]. reflexivity.
    + cbn [orb].
      destruct (IH (mk_conn (durable c)
                   (insert_or_ignore_message (row_of_message ch m) (work c))
                   true (S (executed c)))) as [[Hf [c' [Hr Hd]]] | [Hf Hr]].
      * left. split; [exact Hf|]. exists c'. split; [exact Hr| exact Hd].
      * right. split; [exact Hf|]. rewrite Hr. cbn.
        replace (S (executed c + List.length rest))
          with (executed c + S (List.length rest)) by lia.
        destruct rest; reflexivity.
Qed.

End Transactions.

Lemma fault_within_two faults n :
  fault_within faults 0 (n + 2) =
  fault_within faults 0 n || faults n || faults (S n).
Proof.
  unfold fault_within. rewrite seq_app, existsb_app. cbn.
  now rewrite orb_false_r, orb_assoc.
Qed.

(** The outcome of one archiving call, statement by statement. *)
Lemma archive_run cl faults ch d :
  archive_channel_messages cl faults ch d =
  match conversations_history cl ch (oldest_of (cursor_of ch d)) with
  | inl _ => (inr tt, d)
  | inr [] => (inr tt, d)
  | inr page =>
      if fault_within faults 0 (List.length page + 2)
      then (inl SqliteError, d)
      else (inr tt, committed_page ch page d)
  end.
Proof.
  unfold archive_channel_messages, with_connection, archive_body, cursor_of.
  unfold bind at 1. unfold bind at 1. unfold query at 1. cbn [work].
  unfold try_except_slack.
  destruct (conversations_history cl ch _) as [e | page].
  - reflexivity.
  - destruct page as [|m0 rest]; [reflexivity|].
    set (page := m0 :: rest).
    rewrite fault_within_two.
    unfold bind.
    destruct (insert_messages_run faults ch page (mk_conn d d false 0))
      as [[Hf [c' [Hr Hd]]] | [Hf Hr]]; cbn [executed durable work in_txn] in *.
    + rewrite Hr, Hf. cbn. now rewrite Hd.
    + rewrite Hr, Hf. cbn [orb].
      unfold execute, commit, ret. cbn [executed durable work in_txn Nat.add].
      destruct (faults (List.length page)) eqn:F1; [reflexivity|].
      cbn [executed durable work in_txn orb].
      destruct (faults (S (List.length page))) eqn:F2; reflexivity.
Qed.

Lemma add_channel_run cl faults ch d :
  add_channel_to_archive cl faults ch d =
  match conversations_info cl ch with
  | inl _ => (inr tt, d)
  | inr name =>
      if faults 0 || faults 1
      then (inl SqliteError, d)
      else (inr tt, insert_or_replace_channel (mk_channel ch name None) d)
  end.
Proof.
  unfold add_channel_to_archive, with_connection.
  destruct (conversations_info cl ch) as [e | name]; [reflexivity|].
  unfold bind, execute, commit, ret. cbn [executed durable work in_txn].
  destruct (faults 0); [reflexivity|]. cbn [executed durable work in_txn orb].
  destruct (faults 1); reflexivity.
Qed.

(** ** The messages table under INSERT OR IGNORE *)

Lemma has_message_id_In id rows :
  has_message_id id rows = true <-> In id (map message_id rows).
Proof.
  unfold has_message_id. rewrite existsb_exists, in_map_iff.
  split; intros [r [H1 H2]]; exists r.
  - apply String.eqb_eq in H2. auto.
  - split; [exact H2 | now apply String.eqb_eq].
Qed.

Lemma has_message_id_app id l1 l2 :
  has_message_id id (l1 ++ l2) = has_message_id id l1 || has_message_id id l2.
Proof. apply existsb_app. Qed.

Lemma insert_or_ignore_channels r d :
  channels (insert_or_ignore_message r d) = channels d.
Proof. unfold insert_or_ignore_message. now destruct (has_message_id _ _). Qed.

Lemma insert_or_ignore_has r d :
  has_message_id (message_id r) (messages (insert_or_ignore_message r d)) = true.
Proof.
  unfold insert_or_ignore_message.
  destruct (has_message_id (message_id r) (messages d)) eqn:H; [exact H|].
  cbn [messages]. rewrite has_message_id_app. cbn.
  now rewrite String.eqb_refl, orb_true_r.
Qed.

Lemma insert_or_ignore_grows r d :
  exists l, messages (insert_or_ignore_message r d) = messages d ++ l /\
            (l = [] \/ (l = [r] /\ has_message_id (message_id r) (messages d) = false)).
Proof.
  unfold insert_or_ignore_message.
  destruct (has_message_id _ _) eqn:H.
  - exists []. rewrite app_nil_r. auto.
  - exists [r]. auto.
Qed.

Lemma insert_or_ignore_nodup r d :
  NoDup (map message_id (messages d)) ->
  NoDup (map message_id (messages (insert_or_ignore_message r d))).
Proof.
  intros ND. unfold insert_or_ignore_message.
  destruct (has_message_id _ _) eqn:H; [exact ND|].
  cbn [messages]. rewrite map_app. cbn.
  apply NoDup_app; [exact ND | constructor; [intros [] | constructor] |].
  intros a Ha [<- | []].
  apply has_message_id_In in Ha. congruence.
Qed.

Section StorePage.

Variable ch : string.

Lemma store_page_cons m rest d :
  store_page ch (m :: rest) d
  = store_page ch rest (insert_or_ignore_message (row_of_message ch m) d).
Proof. reflexivity. Qed.

Lemma store_page_channels page d :
  channels (store_page ch page d) = channels d.
Proof.
  revert d. induction page as [|m rest IH]; intros d; [reflexivity|].
  rewrite store_page_cons, IH. apply insert_or_ignore_channels.
Qed.

(** Rows are only ever appended, and each new row comes from the page. *)
Lemma store_page_grows page d :
  exists l, messages (store_page ch page d) = messages d ++ l /\
            Forall (fun r => exists m, In m page /\ r = row_of_message ch m) l /\
            List.length l <= List.length page.
Proof.
  revert d. induction page as [|m rest IH]; intros d.
  - exists []. cbn. rewrite app_nil_r. auto.
  - rewrite store_page_cons.
    destruct (IH (insert_or_ignore_message (row_of_message ch m) d)) as [l [E [F L]]].
    destruct (insert_or_ignore_grows (row_of_message ch m) d) as [l0 [E0 H0]].
    exists (l0 ++ l). rewrite E, E0, <- app_assoc. split; [reflexivity|]. split.
    + apply Forall_app. split.
      * destruct H0 as [-> | [-> _]]; constructor; [|constructor].
        exists m. split; [now left | reflexivity].
      * eapply Forall_impl; [|exact F]. intros r [m' [Hin ->]].
        exists m'. split; [now right | reflexivity].
    + rewrite length_app. destruct H0 as [-> | [-> _]]; cbn; lia.
Qed.

Lemma store_page_keeps page d id :
  has_message_id id (messages d) = true ->
  has_message_id id (messages (store_page ch page d)) = true.
Proof.
  intros H. destruct (store_page_grows page d) as [l [E _]].
  rewrite E, has_message_id_app, H. reflexivity.
Qed.

Lemma store_page_has page d m :
  In m page -> has_message_id (ts m) (messages (store_page ch page d)) = true.
Proof.
  revert d. induction page as [|m' rest IH]; intros d; [intros []|].
  intros [-> | Hin]; rewrite store_page_cons.
  - apply store_page_keeps.
    exact (insert_or_ignore_has (row_of_message ch m) d).
  - now apply IH.
Qed.

Lemma store_page_nodup page d :
  NoDup (map message_id (messages d)) ->
  NoDup (map message_id (messages (store_page ch page d))).
Proof.
  revert d. induction page as [|m rest IH]; intros d ND; [exact ND|].
  rewrite store_page_cons. apply IH. now apply insert_or_ignore_nodup.
Qed.

(** A page whose ids are all present already changes nothing. *)
Lemma store_page_noop page d :
  (forall m, In m page -> has_message_id (ts m) (messages d) = true) ->
  store_page ch page d = d.
Proof.
  induction page as [|m rest IH]; intros H; [reflexivity|].
  rewrite store_page_cons. unfold insert_or_ignore_message.
  cbn [row_of_message message_id]. rewrite (H m (or_introl eq_refl)).
  apply IH. intros m' Hin. apply H. now right.
Qed.

End StorePage.

(** ** The channels table *)

Lemma select_after_update_same t ch d :
  select_last_archived ch (update_last_archived t ch d) =
  match select_last_archived ch d with
  | Some _ => Some (Some t)
  | None => None
  end.
Proof.
  unfold select_last_archived, update_last_archived. cbn [channels].
  induction (channels d) as [|r l IH]; [reflexivity|].
  cbn [map find]. destruct (channel_id r =? ch) eqn:E.
  - cbn [channel_id]. rewrite E. reflexivity.
  - rewrite E. exact IH.
Qed.

Lemma select_after_update_other t ch ch' d :
  ch' <> ch ->
  select_last_archived ch' (update_last_archived t ch d) = select_last_archived ch' d.
Proof.
  intros N. unfold select_last_archived, update_last_archived. cbn [channels].
  induction (channels d) as [|r l IH]; [reflexivity|].
  cbn [map find]. destruct (channel_id r =? ch) eqn:E.
  - cbn [channel_id]. apply String.eqb_eq in E.
    destruct (channel_id r =? ch') eqn:E'.
    + apply String.eqb_eq in E'. congruence.
    + exact IH.
  - destruct (channel_id r =? ch'); [reflexivity | exact IH].
Qed.

Lemma update_channel_ids t ch d :
  map channel_id (channels (update_last_archived t ch d)) = map channel_id (channels d).
Proof.
  unfold update_last_archived. cbn [channels]. rewrite map_map.
  apply map_ext. intros r. now destruct (channel_id r =? ch).
Qed.

Lemma select_store_page ch ch' page d :
  select_last_archived ch' (store_page ch page d) = select_last_archived ch' d.
Proof. unfold select_last_archived. now rewrite store_page_channels. Qed.

Lemma committed_messages ch page d :
  messages (committed_page ch page d) = messages (store_page ch page d).
Proof. destruct page; reflexivity. Qed.

Lemma committed_channel_ids ch page d :
  map channel_id (channels (committed_page ch page d)) = map channel_id (channels d).
Proof.
  destruct page as [|m0 rest]; [reflexivity|].
  unfold committed_page. now rewrite update_channel_ids, store_page_channels.
Qed.

Lemma committed_cursor_same ch page d :
  select_last_archived ch (committed_page ch page d) =
  match select_last_archived ch d, page with
  | Some _, m0 :: _ => Some (Some (ts m0))
  | c, _ => c
  end.
Proof.
  destruct page as [|m0 rest].
  - cbn. now destruct (select_last_archived ch d).
  - unfold committed_page. rewrite select_after_update_same, select_store_page.
    now destruct (select_last_archived ch d).
Qed.

Lemma committed_cursor_other ch ch' page d :
  ch' <> ch ->
  select_last_archived ch' (committed_page ch page d) = select_last_archived ch' d.
Proof.
  intros N. destruct page as [|m0 rest]; [reflexivity|].
  unfold committed_page. now rewrite select_after_update_other, select_store_page.
Qed.

Lemma select_registered ch d :
  select_last_archived ch d <> None <-> In ch (map channel_id (channels d)).
Proof.
  unfold select_last_archived.
  induction (channels d) as [|r l IH]; cbn [find map In].
  - split; [congruence | intros []].
  - destruct (channel_id r =? ch) eqn:E.
    + apply String.eqb_eq in E. split; [auto | discriminate].
    + apply String.eqb_neq in E. rewrite IH. split; [auto | intros [? | ?]; [contradiction | assumption]].
Qed.

Lemma replace_channel_ids r d :
  NoDup (map channel_id (channels d)) ->
  NoDup (map channel_id (channels (insert_or_replace_channel r d))).
Proof.
  intros ND. unfold insert_or_replace_channel. cbn [channels].
  rewrite map_app. cbn [map].
  apply NoDup_app.
  - induction (channels d) as [|r' l IH]; [constructor|].
    cbn [map] in ND. inversion ND as [|? ? Hn ND']; subst.
    cbn [filter]. destruct (negb (channel_id r' =? channel_id r)); [|now apply IH].
    cbn [map]. constructor; [|now apply IH].
    intros Hin. apply Hn. apply in_map_iff in Hin. destruct Hin as [x [Hx Hf]].
    apply filter_In in Hf. apply in_map_iff. exists x. tauto.
  - constructor; [intros [] | constructor].
  - intros a Ha [<- | []]. apply in_map_iff in Ha. destruct Ha as [x [Hx Hf]].
    apply filter_In in Hf. destruct Hf as [_ Hf].
    apply negb_true_iff, String.eqb_neq in Hf. congruence.
Qed.

Lemma select_after_replace_same ch name c d :
  select_last_archived ch (insert_or_replace_channel (mk_channel ch name c) d) = Some c.
Proof.
  unfold select_last_archived, insert_or_replace_channel. cbn [channels channel_id].
  induction (channels d) as [|r l IH].
  - cbn. now rewrite String.eqb_refl.
  - cbn [filter]. destruct (channel_id r =? ch) eqn:E; cbn [negb]; [exact IH|].
    cbn [app find]. rewrite E. exact IH.
Qed.

(** ** Invariants of reachable databases *)

Lemma committed_page_invariant ch page d :
  db_invariant d -> db_invariant (committed_page ch page d).
Proof.
  intros [I1 I2 I3]. split.
  - rewrite committed_messages. now apply store_page_nodup.
  - rewrite committed_messages.
    destruct (store_page_grows ch page d) as [l [E [F _]]]. rewrite E.
    apply Forall_app. split; [exact I2|].
    eapply Forall_impl; [|exact F]. intros r [m [_ ->]]. reflexivity.
  - now rewrite committed_channel_ids.
Qed.

Lemma archive_invariant cl faults ch d :
  db_invariant d -> db_invariant (snd (archive_channel_messages cl faults ch d)).
Proof.
  intros I. rewrite archive_run.
  destruct (conversations_history cl ch _) as [e | [|m0 rest]]; try exact I.
  destruct (fault_within _ _ _); [exact I|]. now apply committed_page_invariant.
Qed.

Lemma add_channel_invariant cl faults ch d :
  db_invariant d -> db_invariant (snd (add_channel_to_archive cl faults ch d)).
Proof.
  intros I. rewrite add_channel_run.
  destruct (conversations_info cl ch) as [e | name]; [exact I|].
  destruct (faults 0 || faults 1); [exact I|].
  destruct I as [I1 I2 I3]. split; cbn [snd]; try assumption.
  now apply replace_channel_ids.
Qed.

Lemma reachable_invariant d : reachable d -> db_invariant d.
Proof.
  induction 1 as [| cl faults ch d R IH | cl faults ch d R IH].
  - split; cbn; constructor.
  - now apply add_channel_invariant.
  - now apply archive_invariant.
Qed.

Lemma select_after_replace_other r ch' d :
  ch' <> channel_id r ->
  select_last_archived ch' (insert_or_replace_channel r d) = select_last_archived ch' d.
Proof.
  intros N. unfold select_last_archived, insert_or_replace_channel. cbn [channels].
  induction (channels d) as [|r' l IH].
  - cbn. destruct (channel_id r =? ch') eqn:E; [|reflexivity].
    apply String.eqb_eq in E. congruence.
  - cbn [filter find]. destruct (channel_id r' =? channel_id r) eqn:E; cbn [negb].
    + apply String.eqb_eq in E. rewrite E.
      destruct (channel_id r =? ch') eqn:E'; [|exact IH].
      apply String.eqb_eq in E'. congruence.
    + cbn [app find]. destruct (channel_id r' =? ch'); [reflexivity | exact IH].
Qed.

Lemma two_channel_db_reachable : reachable two_channel_db.
Proof.
  exact (reach_add (mk_client (fun _ => inr "random") (fun _ _ => inr [])) no_faults "B" _
           (reach_add (constant_client []) no_faults "A" _ reach_setup)).
Qed.

Lemma string_leb_refl s : (s <=? s)%string = true.
Proof.
  destruct (String.leb_total s s); assumption.
Qed.

Lemma limit_offset_nil {A} limit offset : @limit_offset A limit offset [] = [].
Proof.
  unfold limit_offset. rewrite skipn_nil.
  destruct (limit <? 0)%Z; [reflexivity | apply firstn_nil].
Qed.

(** ** The archive-all loop *)

Lemma fault_within_none faults start n :
  (forall k, faults k = false) -> fault_within faults start n = false.
Proof.
  intros H. unfold fault_within. induction (seq start n) as [|k l IH]; [reflexivity|].
  cbn. now rewrite H, IH.
Qed.

(** Without storage faults a call always returns normally. *)
Lemma archive_run_no_fault cl faults ch d :
  (forall k, faults k = false) ->
  archive_channel_messages cl faults ch d =
  (inr tt,
   match conversations_history cl ch (oldest_of (cursor_of ch d)) with
   | inl _ => d
   | inr page => committed_page ch page d
   end).
Proof.
  intros H. rewrite archive_run.
  destruct (conversations_history cl ch _) as [e | [|m0 rest]]; try reflexivity.
  now rewrite fault_within_none.
Qed.

Lemma archive_all_no_fault cl faults chs :
  (forall ch k, faults ch k = false) ->
  NoDup chs ->
  forall d,
  (forall ch, In ch chs -> select_last_archived ch d <> None) ->
  fst (archive_all cl faults chs d) = inr tt /\
  (forall id, has_message_id id (messages d) = true ->
              has_message_id id (messages (snd (archive_all cl faults chs d))) = true) /\
  (forall ch, ~ In ch chs ->
              select_last_archived ch (snd (archive_all cl faults chs d))
              = select_last_archived ch d) /\
  (forall ch, In ch chs ->
     match conversations_history cl ch (oldest_of (cursor_of ch d)) with
     | inl _ =>
         select_last_archived ch (snd (archive_all cl faults chs d))
         = select_last_archived ch d
     | inr page =>
         (forall m, In m page ->
            has_message_id (ts m) (messages (snd (archive_all cl faults chs d))) = true) /\
         select_last_archived ch (snd (archive_all cl faults chs d))
         = cursor_after (select_last_archived ch d) page
     end).
Proof.
  intros Hf ND. induction ND as [|c rest Hnotin ND IH]; intros d Hreg.
  - cbn. repeat split; auto. intros ch [].
  - cbn [archive_all]. rewrite (archive_run_no_fault cl (faults c) c d (Hf c)).
    remember (match conversations_history cl c (oldest_of (cursor_of c d)) with
              | inl _ => d
              | inr page => committed_page c page d
              end) as d1 eqn:Ed1.
    assert (Hother : forall ch, ch <> c ->
              select_last_archived ch d1 = select_last_archived ch d).
    { intros ch N. subst d1.
      destruct (conversations_history cl c _); [reflexivity|].
      now apply committed_cursor_other. }
    assert (Hgrow : forall id, has_message_id id (messages d) = true ->
              has_message_id id (messages d1) = true).
    { intros id H. subst d1.
      destruct (conversations_history cl c _); [exact H|].
      rewrite committed_messages. now apply store_page_keeps. }
    assert (Hself :
      match conversations_history cl c (oldest_of (cursor_of c d)) with
      | inl _ => select_last_archived c d1 = select_last_archived c d
      | inr page =>
          (forall m, In m page -> has_message_id (ts m) (messages d1) = true) /\
          select_last_archived c d1 = cursor_after (select_last_archived c d) page
      end).
    { subst d1. destruct (conversations_history cl c _) as [e | page]; [reflexivity|].
      split.
      - intros m Hm. rewrite committed_messages. now apply store_page_has.
      - rewrite committed_cursor_same. unfold cursor_after.
        now destruct (select_last_archived c d), page. }
    clear Ed1.
    destruct (IH d1) as [R [G [O P]]].
    { intros ch Hin. rewrite Hother; [apply Hreg; now right|].
      intros ->. contradiction. }
    split; [exact R|]. split; [|split].
    + intros id H. apply G, Hgrow, H.
    + intros ch Hn. rewrite O; [|intros Hin; apply Hn; now right].
      apply Hother. intros ->. apply Hn. now left.
    + intros ch [<- | Hin].
      * rewrite (O c Hnotin).
        destruct (conversations_history cl c _) as [e | page]; [exact Hself|].
        destruct Hself as [Hs1 Hs2]. split; [|exact Hs2].
        intros m Hm. apply G, Hs1, Hm.
      * assert (N : ch <> c) by (intros ->; contradiction).
        specialize (P ch Hin). unfold cursor_of in P |- *.
        rewrite (Hother ch N) in P. exact P.
Qed.

(** ** Byte-wise order on TEXT values *)

Lemma string_compare_refl s : (s ?= s)%string = Eq.
Proof.
  pose proof (String.compare_antisym s s) as H.
  destruct (s ?= s)%string; [reflexivity | discriminate H | discriminate H].
Qed.

Lemma string_ltb_irrefl s : (s <? s)%string = false.
Proof. unfold String.ltb. now rewrite string_compare_refl. Qed.

Lemma string_ltb_trans a b c :
  (a <? b)%string = true -> (b <? c)%string = true -> (a <? c)%string = true.
Proof.
  unfold String.ltb. intros H1 H2.
  destruct (a ?= b)%string eqn:E1; try discriminate.
  destruct (b ?= c)%string eqn:E2; try discriminate.
  apply String_as_OT.cmp_lt in E1, E2.
  pose proof (String_as_OT.lt_trans _ _ _ E1 E2) as L.
  apply String_as_OT.cmp_lt in L. unfold String_as_OT.cmp in L. now rewrite L.
Qed.

Lemma string_leb_cases a b :
  (a <=? b)%string = true -> a = b \/ (a <? b)%string = true.
Proof.
  unfold String.leb, String.ltb.
  destruct (a ?= b)%string eqn:E; intros H.
  - left. now apply String.compare_eq_iff.
  - now right.
  - discriminate.
Qed.

Lemma string_leb_false a b :
  (a <=? b)%string = false -> (b <? a)%string = true.
Proof.
  unfold String.leb, String.ltb. rewrite (String.compare_antisym b a).
  now destruct (a ?= b)%string.
Qed.

(** ** ORDER BY timestamp *)

Lemma insert_sorted_perm r l : Permutation (insert_sorted r l) (r :: l).
Proof.
  induction l as [|r' l IH]; [reflexivity|].
  cbn [insert_sorted]. destruct (timestamp r' <=? timestamp r)%string; [|reflexivity].
  rewrite IH. apply perm_swap.
Qed.

Lemma order_by_perm_acc l acc :
  Permutation (fold_left (fun acc r => insert_sorted r acc) l acc) (l ++ acc).
Proof.
  revert acc. induction l as [|r l IH]; intros acc; [reflexivity|].
  cbn [fold_left]. rewrite IH, insert_sorted_perm.
  symmetry. apply Permutation_middle.
Qed.

Lemma order_by_timestamp_perm l : Permutation (order_by_timestamp l) l.
Proof.
  unfold order_by_timestamp. rewrite order_by_perm_acc. now rewrite app_nil_r.
Qed.

Lemma insert_sorted_strict r l :
  StronglySorted ts_lt l ->
  (forall x, In x l -> timestamp x <> timestamp r) ->
  StronglySorted ts_lt (insert_sorted r l).
Proof.
  induction 1 as [|r' l S IH F]; intros Hne.
  - repeat constructor.
  - cbn [insert_sorted].
    destruct (timestamp r' <=? timestamp r)%string eqn:E.
    + constructor.
      * apply IH. intros x Hin. apply Hne. now right.
      * assert (Hlt : ts_lt r' r).
        { destruct (string_leb_cases _ _ E) as [Heq | Hlt]; [|exact Hlt].
          exfalso. apply (Hne r'); [now left | exact Heq]. }
        apply Forall_forall. intros x Hin.
        apply (Permutation_in _ (insert_sorted_perm r l)) in Hin.
        destruct Hin as [<- | Hin]; [exact Hlt|].
        rewrite Forall_forall in F. now apply F.
    + apply string_leb_false in E.
      constructor; [now constructor|].
      constructor; [exact E|].
      eapply Forall_impl; [|exact F]. intros x Hx.
      unfold ts_lt in *. eapply string_ltb_trans; eassumption.
Qed.

Lemma order_by_strict_acc l acc :
  StronglySorted ts_lt acc ->
  NoDup (map timestamp (l ++ acc)) ->
  StronglySorted ts_lt (fold_left (fun acc r => insert_sorted r acc) l acc).
Proof.
  revert acc. induction l as [|r l IH]; intros acc S ND; [exact S|].
  cbn [fold_left]. cbn [app map] in ND. inversion ND as [|? ? Hn ND']; subst.
  apply IH.
  - apply insert_sorted_strict; [exact S|].
    intros x Hin Heq. apply Hn. rewrite <- Heq.
    apply in_map, in_or_app. now right.
  - eapply Permutation_NoDup; [|exact ND].
    change (timestamp r :: map timestamp (l ++ acc))
      with (map timestamp (r :: l ++ acc)).
    apply Permutation_map.
    rewrite insert_sorted_perm. apply Permutation_middle.
Qed.

Lemma order_by_timestamp_strict l :
  NoDup (map timestamp l) -> StronglySorted ts_lt (order_by_timestamp l).
Proof.
  intros ND. apply order_by_strict_acc; [constructor | now rewrite app_nil_r].
Qed.

(** Two strictly ascending listings of the same rows are the same list. *)
Lemma strict_sorted_unique l1 :
  forall l2, StronglySorted ts_lt l1 -> StronglySorted ts_lt l2 ->
             Permutation l1 l2 -> l1 = l2.
Proof.
  induction l1 as [|a l1 IH]; intros l2 S1 S2 P.
  - apply Permutation_nil in P. now subst.
  - destruct l2 as [|b l2].
    + symmetry in P. apply Permutation_nil in P. discriminate.
    + inversion S1 as [|? ? S1' F1]; subst. inversion S2 as [|? ? S2' F2]; subst.
      rewrite Forall_forall in F1, F2.
      assert (a = b) as <-.
      { assert (Ha : In a (b :: l2)) by (apply (Permutation_in _ P); now left).
        assert (Hb : In b (a :: l1))
          by (apply (Permutation_in _ (Permutation_sym P)); now left).
        destruct Ha as [Ha | Ha]; [now symmetry|].
        destruct Hb as [Hb | Hb]; [exact Hb|].
        pose proof (F2 a Ha) as L1. pose proof (F1 b Hb) as L2.
        unfold ts_lt in *.
        pose proof (string_ltb_trans _ _ _ L1 L2) as L.
        rewrite string_ltb_irrefl in L. discriminate. }
      f_equal. apply IH; try assumption.
      now apply Permutation_cons_inv in P.
Qed.

Lemma filter_perm {A} (p : A -> bool) l1 l2 :
  Permutation l1 l2 -> Permutation (filter p l1) (filter p l2).
Proof.
  induction 1 as [| x l l' _ IH | x y l | l l' l'' _ IH1 _ IH2]; cbn [filter].
  - reflexivity.
  - destruct (p x); [now constructor | exact IH].
  - destruct (p x), (p y); try reflexivity. apply perm_swap.
  - now transitivity (filter p l').
Qed.

Lemma nodup_map_filter {A B} (f : A -> B) (p : A -> bool) l :
  NoDup (map f l) -> NoDup (map f (filter p l)).
Proof.
  induction l as [|a l IH]; cbn [map filter]; intros ND; [constructor|].
  inversion ND as [|? ? Hn ND']; subst.
  destruct (p a); [|now apply IH].
  cbn [map]. constructor; [|now apply IH].
  intros Hin. apply Hn. apply in_map_iff in Hin. destruct Hin as [x [Hx Hf]].
  apply filter_In in Hf. apply in_map_iff. exists x. tauto.
Qed.

Lemma invariant_timestamps_nodup d :
  db_invariant d -> NoDup (map timestamp (messages d)).
Proof.
  intros [I1 I2 _].
  replace (map timestamp (messages d)) with (map message_id (messages d)); [exact I1|].
  induction (messages d) as [|r l IH]; [reflexivity|].
  inversion I2 as [|? ? Hr Hl]; subst. inversion I1; subst.
  cbn [map]. rewrite Hr. f_equal. now apply IH.
Qed.

Lemma select_channel_messages_strict ch d :
  db_invariant d -> StronglySorted ts_lt (select_channel_messages ch d).
Proof.
  intros I. apply order_by_timestamp_strict, nodup_map_filter.
  now apply invariant_timestamps_nodup.
Qed.

Section Windows.

Context {A : Type} (R : A -> A -> Prop).

Lemma strongly_sorted_skipn n l :
  StronglySorted R l -> StronglySorted R (skipn n l).
Proof.
  revert l. induction n as [|n IH]; intros l S; [exact S|].
  destruct l as [|a l]; [exact S|]. cbn [skipn]. apply IH.
  now inversion S.
Qed.

Lemma strongly_sorted_firstn n l :
  StronglySorted R l -> StronglySorted R (firstn n l).
Proof.
  revert l. induction n as [|n IH]; intros l S; [constructor|].
  destruct l as [|a l]; [constructor|]. cbn [firstn].
  inversion S as [|? ? S' F]; subst. constructor; [now apply IH|].
  rewrite Forall_forall in *. intros x Hin. apply F.
  rewrite <- (firstn_skipn n l). apply in_or_app. now left.
Qed.

Lemma strongly_sorted_limit_offset limit offset l :
  StronglySorted R l -> StronglySorted R (limit_offset limit offset l).
Proof.
  intros S. unfold limit_offset.
  destruct (limit <? 0)%Z.
  - now apply strongly_sorted_skipn.
  - now apply strongly_sorted_firstn, strongly_sorted_skipn.
Qed.

End Windows.

Lemma dicts_sorted l :
  StronglySorted ts_lt l -> StronglySorted dict_le (map dict_of_row l).
Proof.
  induction 1 as [|r l S IH F]; cbn [map]; constructor; [exact IH|].
  apply Forall_map. eapply Forall_impl; [|exact F].
  intros x Hx. left. exact Hx.
Qed.

Lemma select_channel_messages_order_free ch d d' :
  db_invariant d -> db_invariant d' ->
  Permutation (messages d') (messages d) ->
  select_channel_messages ch d' = select_channel_messages ch d.
Proof.
  intros I I' P. apply strict_sorted_unique.
  - now apply select_channel_messages_strict.
  - now apply select_channel_messages_strict.
  - unfold select_channel_messages.
    rewrite !order_by_timestamp_perm. now apply filter_perm.
Qed.

Lemma one_channel_db_reachable : reachable one_channel_db.
Proof. exact (reach_add (constant_client []) no_faults "C1" _ reach_setup). Qed.

(** ** The order of [select_channel_ids] *)

Lemma insert_id_perm s l : Permutation (insert_id s l) (s :: l).
Proof.
  induction l as [|x l IH]; [reflexivity|].
  cbn [insert_id]. destruct (s <=? x)%string; [reflexivity|].
  rewrite IH. apply perm_swap.
Qed.

Lemma sort_ids_perm l : Permutation (sort_ids l) l.
Proof.
  induction l as [|x l IH]; [reflexivity|].
  cbn [sort_ids fold_right]. rewrite insert_id_perm. now constructor.
Qed.

Lemma select_channel_ids_In ch d :
  In ch (select_channel_ids d) <-> In ch (map channel_id (channels d)).
Proof.
  unfold select_channel_ids. split; apply Permutation_in.
  - apply sort_ids_perm.
  - symmetry. apply sort_ids_perm.
Qed.

Lemma select_channel_ids_nodup d :
  NoDup (map channel_id (channels d)) -> NoDup (select_channel_ids d).
Proof.
  apply Permutation_NoDup. symmetry. apply sort_ids_perm.
Qed.

Lemma insert_id_sorted s l :
  Sorted (fun a b => (a <=? b)%string = true) l ->
  Sorted (fun a b => (a <=? b)%string = true) (insert_id s l).
Proof.
  induction 1 as [|x l S IH Hd]; [repeat constructor|].
  cbn [insert_id]. destruct (s <=? x)%string eqn:E.
  - constructor; [now constructor | now constructor].
  - assert (Hx : (x <=? s)%string = true).
    { destruct (String.leb_total s x) as [H | H]; [congruence | exact H]. }
    constructor; [exact IH|].
    destruct l as [|y l]; cbn [insert_id]; [now constructor|].
    destruct (s <=? y)%string; constructor; [exact Hx|].
    now inversion Hd.
Qed.

Lemma select_channel_ids_sorted d :
  Sorted (fun a b => (a <=? b)%string = true) (select_channel_ids d).
Proof.
  unfold select_channel_ids, sort_ids.
  induction (map channel_id (channels d)) as [|x l IH]; [constructor|].
  cbn [fold_right]. now apply insert_id_sorted.
Qed.

(** ** The rows a page adds *)

Lemma existsb_eqb_In x l : existsb (String.eqb x) l = true <-> In x l.
Proof.
  rewrite existsb_exists. split.
  - intros [y [Hy E]]. apply String.eqb_eq in E. now subst.
  - intros H. exists x. split; [exact H | apply String.eqb_refl].
Qed.

Lemma has_message_id_existsb id rows :
  has_message_id id rows = existsb (String.eqb id) (map message_id rows).
Proof.
  unfold has_message_id. induction rows as [|r l IH]; [reflexivity|].
  cbn [existsb map]. now rewrite IH, String.eqb_sym.
Qed.

Lemma store_page_fresh ch page d :
  messages (store_page ch page d)
  = messages d ++ fresh_rows ch (map message_id (messages d)) page.
Proof.
  revert d. induction page as [|m rest IH]; intros d.
  - cbn. now rewrite app_nil_r.
  - rewrite store_page_cons, IH. cbn [fresh_rows].
    unfold insert_or_ignore_message. cbn [row_of_message message_id].
    rewrite has_message_id_existsb.
    destruct (existsb (String.eqb (ts m)) (map message_id (messages d))); [reflexivity|].
    cbn [messages]. rewrite map_app, <- app_assoc. reflexivity.
Qed.

Lemma committed_fresh ch page d :
  messages (committed_page ch page d)
  = messages d ++ fresh_rows ch (map message_id (messages d)) page.
Proof. rewrite committed_messages. apply store_page_fresh. Qed.

Lemma committed_channels ch page d :
  channels (committed_page ch page d)
  = match page with
    | [] => channels d
    | m0 :: _ =>
        map (fun r => if channel_id r =? ch
                      then mk_channel (channel_id r) (channel_name r) (Some (ts m0))
                      else r) (channels d)
    end.
Proof.
  destruct page as [|m0 rest]; [reflexivity|].
  unfold committed_page, update_last_archived. cbn [channels].
  now rewrite store_page_channels.
Qed.

Lemma fresh_rows_from_page ch page :
  forall seen,
  Forall (fun r => exists m, In m page /\ ~ In (ts m) seen /\
                     r = mk_message (ts m) ch (ts m)
                           (or_default (m_user m) "N/A") (or_default (m_text m) ""))
         (fresh_rows ch seen page).
Proof.
  induction page as [|a rest IH]; intros seen; [constructor|].
  cbn [fresh_rows]. destruct (existsb (String.eqb (ts a)) seen) eqn:E.
  - eapply Forall_impl; [|apply IH]. intros r [m [Hin [Hn ->]]].
    exists m. split; [now right | auto].
  - constructor.
    + exists a. split; [now left|]. split; [|reflexivity].
      intros Hin. apply existsb_eqb_In in Hin. congruence.
    + eapply Forall_impl; [|apply IH]. intros r [m [Hin [Hn ->]]].
      exists m. split; [now right|]. split; [|reflexivity].
      intros H. apply Hn. apply in_or_app. now left.
Qed.

Lemma fresh_rows_covers ch page :
  forall seen m,
  In m page -> ~ In (ts m) seen ->
  exists m', In m' page /\ ts m' = ts m /\
    In (mk_message (ts m) ch (ts m)
          (or_default (m_user m') "N/A") (or_default (m_text m') ""))
       (fresh_rows ch seen page).
Proof.
  induction page as [|a rest IH]; intros seen m Hin Hn; [destruct Hin|].
  cbn [fresh_rows]. destruct (existsb (String.eqb (ts a)) seen) eqn:E.
  - apply existsb_eqb_In in E.
    destruct Hin as [-> | Hin]; [contradiction|].
    destruct (IH seen m Hin Hn) as [m' [H1 [H2 H3]]].
    exists m'. split; [now right | auto].
  - destruct (String.eqb_spec (ts a) (ts m)) as [Heq | Hne].
    + exists a. split; [now left|]. split; [exact Heq|].
      rewrite <- Heq. now left.
    + destruct Hin as [-> | Hin]; [contradiction|].
      destruct (IH (seen ++ [ts a]) m Hin) as [m' [H1 [H2 H3]]].
      { intros H. apply in_app_or in H. destruct H as [H | [H | []]]; auto. }
      exists m'. split; [now right|]. split; [exact H2 | now right].
Qed.

(** ** The rows an archive-all run adds *)

Lemma archive_all_rows cl faults chs :
  (forall ch k, faults ch k = false) ->
  NoDup chs ->
  forall d,
  exists new,
    messages (snd (archive_all cl faults chs d)) = messages d ++ new /\
    Forall (fun r => exists ch page m,
              In ch chs /\
              conversations_history cl ch (oldest_of (cursor_of ch d)) = inr page /\
              In m page /\ ~ In (ts m) (map message_id (messages d)) /\
              r = mk_message (ts m) ch (ts m)
                    (or_default (m_user m) "N/A") (or_default (m_text m) ""))
           new.
Proof.
  intros Hf ND. induction ND as [|c rest Hnotin ND IH]; intros d.
  - exists []. cbn. rewrite app_nil_r. auto.
  - cbn [archive_all]. rewrite (archive_run_no_fault cl (faults c) c d (Hf c)).
    destruct (conversations_history cl c (oldest_of (cursor_of c d))) as [e | page] eqn:Hc.
    + destruct (IH d) as [new [E F]]. exists new. split; [exact E|].
      eapply Forall_impl; [|exact F].
      intros r [ch [pg [m [H1 H2]]]]. exists ch, pg, m. split; [now right | exact H2].
    + destruct (IH (committed_page c page d)) as [new [E F]].
      exists (fresh_rows c (map message_id (messages d)) page ++ new).
      split; [now rewrite E, committed_fresh, app_assoc|].
      apply Forall_app. split.
      * eapply Forall_impl; [|apply fresh_rows_from_page].
        intros r [m [H1 [H2 ->]]]. exists c, page, m.
        split; [now left|]. auto.
      * eapply Forall_impl; [|exact F].
        intros r [ch [pg [m [H1 [H2 [H3 [H4 ->]]]]]]].
        assert (N : ch <> c) by (intros ->; contradiction).
        exists ch, pg, m. split; [now right|].
        unfold cursor_of in H2 |- *.
        rewrite (committed_cursor_other c ch page d N) in H2.
        split; [exact H2|]. split; [exact H3|]. split; [|reflexivity].
        intros Hin. apply H4. rewrite committed_fresh, map_app.
        apply in_or_app. now left.
Qed.

(** * The claims *)

(** C1, as stated, fails: nothing is stored for channel [B] before the call,
    so neither message of the page is a duplicate for [B]; the call returns
    normally and moves the cursor of [B] to ["200"], yet the message with id
    ["100"] is not stored, because channel [A] holds a row with that id. *)
Lemma page_message_dropped_yet_cursor_advanced :
  filter (fun r => msg_channel_id r =? "B") (messages archived_A) = [] /\
  archive_channel_messages
    (constant_client [sample_message "200"; sample_message "100"]) no_faults "B" archived_A
  = (inr tt,
     mk_db [mk_channel "A" "general" (Some "100"); mk_channel "B" "random" (Some "200")]
           [mk_message "100" "A" "100" "U1" "hello";
            mk_message "200" "B" "200" "U1" "hello"]) /\
  ~ In (mk_message "100" "B" "100" "U1" "hello")
       (messages (snd (archive_channel_messages
                         (constant_client [sample_message "200"; sample_message "100"])
                         no_faults "B" archived_A))).
Proof.
  split; [reflexivity|]. split; [reflexivity|].
  cbn. intros [H | [H | []]]; discriminate H.
Qed.

(** C1, amended: storing a fetched page and advancing the cursor is all or
    nothing, with [message_id] alone as the duplicate key.  Whatever the
    fault schedule, one call of [archive_channel_messages] that fetched
    [page] either returns normally, and then the messages table is the old
    one followed by exactly one row for each message of the page whose [ts]
    was neither stored, under whatever channel, nor met earlier in the page,
    that row holding the [ts] as id and timestamp, the channel of the call,
    and the user and text of the message or their defaults; every [ts] of
    the page is then an id of the table; and the channels table is the old
    one with the cursor of the channel's row set to the [ts] of the page's
    first element (unchanged for an empty page).  Or the call raises the
    storage error, and then the database on disk is the one before it. *)
Theorem archive_page_atomic cl faults ch d page :
  conversations_history cl ch (oldest_of (cursor_of ch d)) = inr page ->
  let (r, d') := archive_channel_messages cl faults ch d in
  (r = inr tt /\
   (page = [] \/ fault_within faults 0 (List.length page + 2) = false) /\
   messages d' = messages d ++ fresh_rows ch (map message_id (messages d)) page /\
   (forall m, In m page -> In (ts m) (map message_id (messages d'))) /\
   (forall m, In m page -> ~ In (ts m) (map message_id (messages d)) ->
      exists m', In m' page /\ ts m' = ts m /\
        In (mk_message (ts m) ch (ts m)
              (or_default (m_user m') "N/A") (or_default (m_text m') ""))
           (messages d')) /\
   channels d' =
     match page with
     | [] => channels d
     | m0 :: _ =>
         map (fun r => if channel_id r =? ch
                       then mk_channel (channel_id r) (channel_name r) (Some (ts m0))
                       else r) (channels d)
     end /\
   select_last_archived ch d' =
     match select_last_archived ch d, page with
     | Some _, m0 :: _ => Some (Some (ts m0))
     | c, _ => c
     end)
  \/
  (r = inl SqliteError /\
   fault_within faults 0 (List.length page + 2) = true /\
   d' = d).
Proof.
  intros H. rewrite archive_run, H.
  assert (Hc : forall m, In m page -> ~ In (ts m) (map message_id (messages d)) ->
            exists m', In m' page /\ ts m' = ts m /\
              In (mk_message (ts m) ch (ts m)
                    (or_default (m_user m') "N/A") (or_default (m_text m') ""))
                 (messages (committed_page ch page d))).
  { intros m Hin Hn.
    destruct (fresh_rows_covers ch page _ m Hin Hn) as [m' [H1 [H2 H3]]].
    exists m'. split; [exact H1|]. split; [exact H2|].
    rewrite committed_fresh. apply in_or_app. now right. }
  destruct page as [|m0 rest].
  - left. split; [reflexivity|]. split; [now left|].
    split; [cbn; now rewrite app_nil_r|].
    split; [intros m []|]. split; [intros m []|]. split; [reflexivity|].
    now destruct (select_last_archived ch d).
  - set (page := m0 :: rest) in *.
    destruct (fault_within faults 0 (List.length page + 2)) eqn:F.
    + right. auto.
    + left. split; [reflexivity|]. split; [now right|].
      split; [apply committed_fresh|]. split; [|split; [exact Hc|split]].
      * intros m Hin. apply has_message_id_In.
        rewrite committed_messages. now apply store_page_has.
      * apply (committed_channels ch page d).
      * apply committed_cursor_same.
Qed.

Lemma archive_page_atomic_witness :
  let (r, d') :=
    archive_channel_messages
      (constant_client [sample_message "200"; sample_message "100"])
      no_faults "B" archived_A in
  (r = inr tt /\
   ([sample_message "200"; sample_message "100"] = [] \/
    fault_within no_faults 0 (2 + 2) = false) /\
   messages d' = messages archived_A
                 ++ fresh_rows "B" (map message_id (messages archived_A))
                      [sample_message "200"; sample_message "100"] /\
   (forall m, In m [sample_message "200"; sample_message "100"] ->
              In (ts m) (map message_id (messages d'))) /\
   (forall m, In m [sample_message "200"; sample_message "100"] ->
      ~ In (ts m) (map message_id (messages archived_A)) ->
      exists m', In m' [sample_message "200"; sample_message "100"] /\ ts m' = ts m /\
        In (mk_message (ts m) "B" (ts m)
              (or_default (m_user m') "N/A") (or_default (m_text m') ""))
           (messages d')) /\
   channels d' =
     map (fun r => if channel_id r =? "B"
                   then mk_channel (channel_id r) (channel_name r) (Some "200")
                   else r) (channels archived_A) /\
   select_last_archived "B" d' = Some (Some "200"))
  \/
  (r = inl SqliteError /\
   fault_within no_faults 0 (2 + 2) = true /\
   d' = archived_A).
Proof.
  exact (archive_page_atomic
           (constant_client [sample_message "200"; sample_message "100"])
           no_faults "B" archived_A
           [sample_message "200"; sample_message "100"] eq_refl).
Defined.

Example archive_rolls_back :
  archive_channel_messages
    (constant_client [sample_message "200"; sample_message "100"])
    (fault_at 1) "C1" one_channel_db
  = (inl SqliteError, one_channel_db).
Proof. reflexivity. Qed.

Example archive_commits :
  archive_channel_messages
    (constant_client [sample_message "200"; sample_message "100"])
    no_faults "C1" one_channel_db
  = (inr tt,
     mk_db [mk_channel "C1" "general" (Some "200")]
           [mk_message "200" "C1" "200" "U1" "hello";
            mk_message "100" "C1" "100" "U1" "hello"]).
Proof. reflexivity. Qed.

(** C2, as stated, fails: after one archived page the cursor of [C1] is
    ["100"]; registering [C1] again puts NULL back into the column. *)
Lemma reregistration_resets_cursor :
  select_last_archived "C1" archived_once = Some (Some "100") /\
  select_last_archived "C1"
    (snd (add_channel_to_archive (constant_client []) no_faults "C1" archived_once))
  = Some None /\
  select_last_archived "C1"
    (snd (add_channel_to_archive (constant_client []) no_faults "C1" archived_once))
  <> select_last_archived "C1" archived_once.
Proof. repeat split; try reflexivity. discriminate. Qed.

(** C2, amended: registering a channel id replaces its row.  When the client
    resolves the id to [name] and the two statements of the transaction do
    not fail, the call returns normally and the channels table is the old
    one without the rows of that id, followed by the row [(ch, name, NULL)]:
    the display name is the new one, the cursor reads NULL whatever it was
    before, and every row of another channel is still there as it was; the
    messages table is untouched. *)
Theorem add_channel_replaces_row cl faults ch d name :
  conversations_info cl ch = inr name ->
  faults 0 || faults 1 = false ->
  let (r, d') := add_channel_to_archive cl faults ch d in
  r = inr tt /\
  channels d' = filter (fun r0 => negb (channel_id r0 =? ch)) (channels d)
                ++ [mk_channel ch name None] /\
  In (mk_channel ch name None) (channels d') /\
  select_last_archived ch d' = Some None /\
  (forall r0, In r0 (channels d) -> channel_id r0 <> ch -> In r0 (channels d')) /\
  (forall r0, In r0 (channels d') -> r0 = mk_channel ch name None \/ In r0 (channels d)) /\
  (forall ch', ch' <> ch -> select_last_archived ch' d' = select_last_archived ch' d) /\
  messages d' = messages d.
Proof.
  intros Hinfo Hf. rewrite add_channel_run, Hinfo, Hf.
  split; [reflexivity|]. split; [reflexivity|]. split; [|split; [|split; [|split; [|split]]]].
  - unfold insert_or_replace_channel. cbn [channels channel_id].
    apply in_or_app. right. now left.
  - apply select_after_replace_same.
  - intros r0 Hin N. unfold insert_or_replace_channel. cbn [channels channel_id].
    apply in_or_app. left. apply filter_In. split; [exact Hin|].
    apply negb_true_iff, String.eqb_neq. exact N.
  - intros r0 Hin. unfold insert_or_replace_channel in Hin. cbn [channels channel_id] in Hin.
    apply in_app_or in Hin. destruct Hin as [Hin | [<- | []]].
    + right. now apply filter_In in Hin.
    + now left.
  - intros ch' N. now apply select_after_replace_other.
  - reflexivity.
Qed.

Lemma add_channel_replaces_row_witness :
  let (r, d') := add_channel_to_archive (constant_client []) no_faults "C1" archived_once in
  r = inr tt /\
  channels d' = filter (fun r0 => negb (channel_id r0 =? "C1")) (channels archived_once)
                ++ [mk_channel "C1" "general" None] /\
  In (mk_channel "C1" "general" None) (channels d') /\
  select_last_archived "C1" d' = Some None /\
  (forall r0, In r0 (channels archived_once) -> channel_id r0 <> "C1" ->
              In r0 (channels d')) /\
  (forall r0, In r0 (channels d') ->
              r0 = mk_channel "C1" "general" None \/ In r0 (channels archived_once)) /\
  (forall ch', ch' <> "C1" ->
     select_last_archived ch' d' = select_last_archived ch' archived_once) /\
  messages d' = messages archived_once.
Proof.
  exact (add_channel_replaces_row (constant_client []) no_faults "C1" archived_once
           "general" eq_refl eq_refl).
Defined.




(** C4, as stated, fails: one run on the two-page scenario stores the three
    messages of the first page only, and the cursor is neither ["150"] nor
    ["100"] but the [ts] of the first element of that page. *)
Lemma one_run_stores_first_page_only :
  archive_channel_messages two_page_client no_faults "C1" one_channel_db
  = (inr tt,
     mk_db [mk_channel "C1" "general" (Some "080")]
           [mk_message "080" "C1" "080" "U1" "hello";
            mk_message "090" "C1" "090" "U1" "hello";
            mk_message "100" "C1" "100" "U1" "hello"]) /\
  List.length
    (messages (snd (archive_channel_messages two_page_client no_faults "C1" one_channel_db)))
  = 3 /\
  has_message_id "150"
    (messages (snd (archive_channel_messages two_page_client no_faults "C1" one_channel_db)))
  = false.
Proof. repeat split. Qed.

(** C4, amended: a single archiving call for one channel makes one history
    request, from the stored cursor, and applies that one page; it does not
    loop.  Its result depends on the client only through the answer to that
    one request, and when it returns normally after fetching [page] the
    messages table is the old one followed by at most [length page] new
    rows, each built from a message of the page, every message of the page
    has a row under its id, and the cursor row of the channel, if there is
    one, holds the [ts] of the first element of the page (it is unchanged
    for an empty page). *)
Theorem archive_fetches_one_page cl faults ch d :
  (forall cl',
     conversations_history cl' ch (oldest_of (cursor_of ch d))
     = conversations_history cl ch (oldest_of (cursor_of ch d)) ->
     archive_channel_messages cl' faults ch d = archive_channel_messages cl faults ch d) /\
  (forall page,
     conversations_history cl ch (oldest_of (cursor_of ch d)) = inr page ->
     fst (archive_channel_messages cl faults ch d) = inr tt ->
     exists new,
       messages (snd (archive_channel_messages cl faults ch d)) = messages d ++ new /\
       List.length new <= List.length page /\
       Forall (fun r => exists m, In m page /\ r = row_of_message ch m) new /\
       (forall m, In m page ->
          has_message_id (ts m)
            (messages (snd (archive_channel_messages cl faults ch d))) = true) /\
       select_last_archived ch (snd (archive_channel_messages cl faults ch d)) =
         match select_last_archived ch d, page with
         | Some _, m0 :: _ => Some (Some (ts m0))
         | c, _ => c
         end).
Proof.
  split.
  - intros cl' H. rewrite (archive_run cl'), (archive_run cl), H. reflexivity.
  - intros page Hp. rewrite archive_run, Hp.
    destruct page as [|m0 rest].
    + intros _. exists []. cbn [snd]. rewrite app_nil_r.
      split; [reflexivity|]. split; [apply Nat.le_refl|]. split; [constructor|].
      split; [intros m []|]. now destruct (select_last_archived ch d).
    + destruct (fault_within _ _ _); [discriminate|]. intros _. cbn [snd].
      destruct (store_page_grows ch (m0 :: rest) d) as [l [E [F L]]].
      exists l. rewrite committed_messages. split; [exact E|]. split; [exact L|].
      split; [exact F|]. split.
      * intros m Hin. now apply store_page_has.
      * apply committed_cursor_same.
Qed.

(** C5, as stated, fails: for an ascending page the cursor ends up at the
    first, lowest, position and not at the last one. *)
Lemma cursor_is_first_of_ascending_page :
  select_last_archived "C1"
    (snd (archive_channel_messages
            (constant_client [sample_message "100"; sample_message "200"])
            no_faults "C1" one_channel_db))
  = Some (Some "100") /\
  ("100" <? "200")%string = true /\
  select_last_archived "C1"
    (snd (archive_channel_messages
            (constant_client [sample_message "100"; sample_message "200"])
            no_faults "C1" one_channel_db))
  <> Some (Some "200").
Proof. repeat split; try reflexivity. discriminate. Qed.

(** C5, amended: after a successful call that fetched a non-empty page for a
    registered channel, the cursor is the [ts] of the first element of the
    page as the client returned it; that is the greatest position of the
    page when the page is ordered newest first.  After an empty page the
    database, and so the cursor, is unchanged. *)
Theorem cursor_after_page cl faults ch d page :
  conversations_history cl ch (oldest_of (cursor_of ch d)) = inr page ->
  select_last_archived ch d <> None ->
  fst (archive_channel_messages cl faults ch d) = inr tt ->
  match page with
  | [] => snd (archive_channel_messages cl faults ch d) = d
  | m0 :: _ =>
      select_last_archived ch (snd (archive_channel_messages cl faults ch d))
      = Some (Some (ts m0)) /\
      (StronglySorted (fun a b => (ts b <=? ts a)%string = true) page ->
       Forall (fun m => (ts m <=? ts m0)%string = true) page)
  end.
Proof.
  intros Hp Hreg. rewrite archive_run, Hp.
  destruct page as [|m0 rest]; [reflexivity|].
  destruct (fault_within _ _ _); [discriminate|]. intros _. cbn [snd]. split.
  - rewrite committed_cursor_same.
    destruct (select_last_archived ch d); [reflexivity | contradiction].
  - intros S. inversion S as [|? ? _ F]; subst.
    constructor; [apply string_leb_refl | exact F].
Qed.

Lemma cursor_after_page_witness :
  select_last_archived "C1"
    (snd (archive_channel_messages
            (constant_client [sample_message "200"; sample_message "100"])
            no_faults "C1" one_channel_db))
  = Some (Some "200") /\
  (StronglySorted (fun a b => (ts b <=? ts a)%string = true)
     [sample_message "200"; sample_message "100"] ->
   Forall (fun m => (ts m <=? "200")%string = true)
     [sample_message "200"; sample_message "100"]).
Proof.
  refine (cursor_after_page
            (constant_client [sample_message "200"; sample_message "100"])
            no_faults "C1" one_channel_db
            [sample_message "200"; sample_message "100"] eq_refl _ eq_refl).
  discriminate.
Defined.

(** C6: archiving is idempotent.  Let a channel have cursor [c] (NULL or not)
    and let the fetch from [c] answer with a page that respects the
    exclusive lower bound and holds no message after [c].  Then, under any
    fault schedule, the call returns normally and leaves the database as it
    was: no row is added and the cursor is unchanged; doing it again gives
    the same. *)
Theorem archive_idempotent cl faults ch d page :
  conversations_history cl ch (oldest_of (cursor_of ch d)) = inr page ->
  (forall m, In m page -> after_cursor (cursor_of ch d) (ts m) = true) ->
  (forall m, In m page -> after_cursor (cursor_of ch d) (ts m) = false) ->
  archive_channel_messages cl faults ch d = (inr tt, d) /\
  List.length (messages (snd (archive_channel_messages cl faults ch d)))
  - List.length (messages d) = 0 /\
  cursor_of ch (snd (archive_channel_messages cl faults ch d)) = cursor_of ch d /\
  archive_channel_messages cl faults ch
    (snd (archive_channel_messages cl faults ch d)) = (inr tt, d).
Proof.
  intros Hp Hlow Hnone.
  assert (page = []) as ->.
  { destruct page as [|m0 rest]; [reflexivity|].
    specialize (Hlow m0 (or_introl eq_refl)).
    specialize (Hnone m0 (or_introl eq_refl)). congruence. }
  assert (E : archive_channel_messages cl faults ch d = (inr tt, d)).
  { rewrite archive_run, Hp. reflexivity. }
  rewrite E. cbn [snd]. rewrite E.
  repeat split. apply Nat.sub_diag.
Qed.

Lemma archive_idempotent_witness :
  archive_channel_messages drained_client (fault_at 0) "C1" archived_two
  = (inr tt, archived_two) /\
  List.length
    (messages (snd (archive_channel_messages drained_client (fault_at 0) "C1" archived_two)))
  - List.length (messages archived_two) = 0 /\
  cursor_of "C1" (snd (archive_channel_messages drained_client (fault_at 0) "C1" archived_two))
  = cursor_of "C1" archived_two /\
  archive_channel_messages drained_client (fault_at 0) "C1"
    (snd (archive_channel_messages drained_client (fault_at 0) "C1" archived_two))
  = (inr tt, archived_two).
Proof.
  refine (archive_idempotent drained_client (fault_at 0) "C1" archived_two []
            eq_refl _ _); intros m [].
Defined.

(** C7: in every reachable database and for all integer arguments that
    SQLite can bind, [get_channel_messages] answers from the one listing
    [all] of the rows stored for the channel that is strictly ascending in
    position: it returns, as dictionaries, the rows of [all] after the first
    [offset] ones, cut to the first [limit] unless [limit] is negative.  The
    returned list is therefore in ascending position order with ties, of
    which there are none as the position column repeats the primary key,
    ordered by [message_id]; and the answer is the same for any reachable
    database that holds the same rows in another insertion order. *)
Theorem get_channel_messages_ordered d ch limit offset :
  reachable d ->
  fits_int64 limit = true ->
  fits_int64 offset = true ->
  exists all rows,
    Permutation all (filter (fun r => msg_channel_id r =? ch) (messages d)) /\
    StronglySorted (fun a b => (timestamp a <? timestamp b)%string = true) all /\
    rows = map (fun r => mk_dict (message_id r) (timestamp r) (user r) (text r))
             (if (limit <? 0)%Z then skipn (Z.to_nat offset) all
              else firstn (Z.to_nat limit) (skipn (Z.to_nat offset) all)) /\
    get_channel_messages d ch limit offset = inr rows /\
    StronglySorted dict_le rows /\
    (forall d', reachable d' ->
                Permutation (messages d') (messages d) ->
                get_channel_messages d' ch limit offset = inr rows).
Proof.
  intros R Hl Ho. pose proof (reachable_invariant d R) as I.
  exists (select_channel_messages ch d). eexists.
  split; [apply order_by_timestamp_perm|].
  split; [now apply select_channel_messages_strict|].
  split; [reflexivity|].
  assert (E : get_channel_messages d ch limit offset
              = inr (map dict_of_row (limit_offset limit offset
                                        (select_channel_messages ch d)))).
  { unfold get_channel_messages. now rewrite Hl, Ho. }
  split; [exact E|]. split.
  - apply (dicts_sorted (limit_offset limit offset (select_channel_messages ch d))).
    apply strongly_sorted_limit_offset.
    now apply select_channel_messages_strict.
  - intros d' R' P. transitivity (get_channel_messages d ch limit offset); [|exact E].
    unfold get_channel_messages.
    rewrite (select_channel_messages_order_free ch d d' I (reachable_invariant d' R') P).
    reflexivity.
Qed.

Lemma get_channel_messages_ordered_witness :
  exists all rows,
    Permutation all (filter (fun r => msg_channel_id r =? "C1") (messages archived_two)) /\
    StronglySorted (fun a b => (timestamp a <? timestamp b)%string = true) all /\
    rows = map (fun r => mk_dict (message_id r) (timestamp r) (user r) (text r))
             (if (1 <? 0)%Z then skipn (Z.to_nat 1) all
              else firstn (Z.to_nat 1) (skipn (Z.to_nat 1) all)) /\
    get_channel_messages archived_two "C1" 1 1 = inr rows /\
    StronglySorted dict_le rows /\
    (forall d', reachable d' ->
                Permutation (messages d') (messages archived_two) ->
                get_channel_messages d' "C1" 1 1 = inr rows).
Proof.
  exact (get_channel_messages_ordered archived_two "C1" 1 1
           (reach_archive (constant_client [sample_message "200"; sample_message "100"])
              no_faults "C1" _ one_channel_db_reachable)
           eq_refl eq_refl).
Defined.

Example query_sorts_rows :
  messages archived_two
  = [mk_message "200" "C1" "200" "U1" "hello"; mk_message "100" "C1" "100" "U1" "hello"] /\
  get_channel_messages archived_two "C1" 100 0
  = inr [mk_dict "100" "100" "U1" "hello"; mk_dict "200" "200" "U1" "hello"] /\
  get_channel_messages archived_two "C1" 1 1 = inr [mk_dict "200" "200" "U1" "hello"] /\
  get_channel_messages archived_two "C1" (-1) 0
  = inr [mk_dict "100" "100" "U1" "hello"; mk_dict "200" "200" "U1" "hello"] /\
  get_channel_messages archived_two "C1" (2 ^ 63) 0 = inl OverflowError.
Proof. repeat split. Qed.


(** C8, as stated, fails: on a database without any channel row, archiving
    channel [C9] raises nothing and stores the fetched message. *)
Lemma unregistered_channel_is_archived :
  select_last_archived "C9" setup_database = None /\
  archive_channel_messages (constant_client [sample_message "100"]) no_faults "C9"
    setup_database
  = (inr tt, mk_db [] [mk_message "100" "C9" "100" "U1" "hello"]).
Proof. split; reflexivity. Qed.

(** C8, amended: for a channel id without a row in the channels table the
    cursor read yields no row and the call goes on as if the cursor were
    NULL: the one history request it makes asks for messages after ['0'],
    no error is raised when storage does not fail, and no channel row is
    created.  When the request raises, the database is unchanged; when it
    is answered with a page, the messages table is the old one followed by
    one row, filed under the unregistered channel id, for each message of
    the page whose [ts] was neither stored under whatever channel nor met
    earlier in the page. *)
Theorem archive_unregistered cl ch d :
  select_last_archived ch d = None ->
  exists d',
    archive_channel_messages cl no_faults ch d = (inr tt, d') /\
    channels d' = channels d /\
    (forall cl', conversations_history cl' ch "0" = conversations_history cl ch "0" ->
                 archive_channel_messages cl' no_faults ch d = (inr tt, d')) /\
    match conversations_history cl ch "0" with
    | inl _ => d' = d
    | inr page =>
        messages d' = messages d ++ fresh_rows ch (map message_id (messages d)) page /\
        (forall m, In m page -> In (ts m) (map message_id (messages d'))) /\
        (forall m, In m page -> ~ In (ts m) (map message_id (messages d)) ->
           exists m', In m' page /\ ts m' = ts m /\
             In (mk_message (ts m) ch (ts m)
                   (or_default (m_user m') "N/A") (or_default (m_text m') ""))
                (messages d'))
    end.
Proof.
  intros Hnone.
  assert (Hc : oldest_of (cursor_of ch d) = "0").
  { unfold cursor_of. rewrite Hnone. reflexivity. }
  pose proof (archive_run_no_fault cl no_faults ch d (fun _ => eq_refl)) as E.
  rewrite Hc in E.
  assert (Hcl : forall cl', conversations_history cl' ch "0" = conversations_history cl ch "0" ->
            archive_channel_messages cl' no_faults ch d = archive_channel_messages cl no_faults ch d).
  { intros cl' H. rewrite (archive_run cl'), (archive_run cl), Hc, H. reflexivity. }
  destruct (conversations_history cl ch "0") as [e | page].
  - exists d. split; [exact E|]. split; [reflexivity|]. split; [|reflexivity].
    intros cl' H. rewrite (Hcl cl' H). exact E.
  - exists (committed_page ch page d).
    split; [exact E|]. split; [|split].
    + rewrite committed_channels. destruct page as [|m0 rest]; [reflexivity|].
      unfold select_last_archived in Hnone.
      induction (channels d) as [|r l IH]; [reflexivity|].
      cbn [find] in Hnone. cbn [map].
      destruct (channel_id r =? ch) eqn:Er; [discriminate|].
      now rewrite IH.
    + intros cl' H. rewrite (Hcl cl' H). exact E.
    + split; [apply committed_fresh|]. split.
      * intros m Hin. apply has_message_id_In.
        rewrite committed_messages. now apply store_page_has.
      * intros m Hin Hn.
        destruct (fresh_rows_covers ch page _ m Hin Hn) as [m' [H1 [H2 H3]]].
        exists m'. split; [exact H1|]. split; [exact H2|].
        rewrite committed_fresh. apply in_or_app. now right.
Qed.

Lemma archive_unregistered_witness :
  exists d',
    archive_channel_messages (constant_client [sample_message "200"; sample_message "100"])
      no_faults "C9" archived_A = (inr tt, d') /\
    channels d' = channels archived_A /\
    (forall cl',
       conversations_history cl' "C9" "0"
       = conversations_history (constant_client [sample_message "200"; sample_message "100"])
           "C9" "0" ->
       archive_channel_messages cl' no_faults "C9" archived_A = (inr tt, d')) /\
    match conversations_history (constant_client [sample_message "200"; sample_message "100"])
            "C9" "0" with
    | inl _ => d' = archived_A
    | inr page =>
        messages d' = messages archived_A
                      ++ fresh_rows "C9" (map message_id (messages archived_A)) page /\
        (forall m, In m page -> In (ts m) (map message_id (messages d'))) /\
        (forall m, In m page -> ~ In (ts m) (map message_id (messages archived_A)) ->
           exists m', In m' page /\ ts m' = ts m /\
             In (mk_message (ts m) "C9" (ts m)
                   (or_default (m_user m') "N/A") (or_default (m_text m') ""))
                (messages d'))
    end.
Proof.
  exact (archive_unregistered (constant_client [sample_message "200"; sample_message "100"])
           "C9" archived_A eq_refl).
Defined.

Example unregistered_channel_rows :
  archive_channel_messages (constant_client [sample_message "200"; sample_message "100"])
    no_faults "C9" archived_A
  = (inr tt,
     mk_db [mk_channel "A" "general" (Some "100"); mk_channel "B" "random" None]
           [mk_message "100" "A" "100" "U1" "hello";
            mk_message "200" "C9" "200" "U1" "hello"]).
Proof. reflexivity. Qed.

(** C9, as stated, fails for storage errors: when the first INSERT for
    channel [A] fails, the error leaves [schedule_archiving], and channel
    [B], whose own call would have stored a message, is never processed. *)
Lemma storage_error_aborts_run :
  schedule_archiving per_channel_client
    (fun ch => if ch =? "A" then fault_at 0 else no_faults) two_channel_db
  = (inl SqliteError, two_channel_db) /\
  archive_channel_messages per_channel_client no_faults "B" two_channel_db
  = (inr tt,
     mk_db [mk_channel "A" "general" None; mk_channel "B" "random" (Some "200")]
           [mk_message "200" "B" "200" "U1" "hello"]).
Proof. split; reflexivity. Qed.

(** C9, amended: an upstream error never aborts the run.  For every reachable
    set of registered channels and every client, when no storage error
    occurs [schedule_archiving] returns normally, and every registered
    channel has been processed.  A channel whose history request raised
    keeps the cursor it had.  For a channel whose request was answered with
    a page, every [ts] of the page is an id of the messages table, its
    cursor is the [ts] of the page's first element (unchanged for an empty
    page), and each message of the page whose [ts] was not stored before and
    is not fetched for another registered channel in the same run has a row
    filed under this channel, with the message's user and text or their
    defaults.  The messages table is the old one followed by rows that are
    each built, for a registered channel, from a message of that channel's
    page whose [ts] was not stored before the run. *)
Theorem schedule_survives_slack_errors cl faults d :
  reachable d ->
  (forall ch k, faults ch k = false) ->
  fst (schedule_archiving cl faults d) = inr tt /\
  (exists new,
     messages (snd (schedule_archiving cl faults d)) = messages d ++ new /\
     Forall (fun r => exists ch page m,
               In ch (map channel_id (channels d)) /\
               conversations_history cl ch (oldest_of (cursor_of ch d)) = inr page /\
               In m page /\ ~ In (ts m) (map message_id (messages d)) /\
               r = mk_message (ts m) ch (ts m)
                     (or_default (m_user m) "N/A") (or_default (m_text m) ""))
            new) /\
  (forall ch, In ch (map channel_id (channels d)) ->
     match conversations_history cl ch (oldest_of (cursor_of ch d)) with
     | inl _ =>
         select_last_archived ch (snd (schedule_archiving cl faults d))
         = select_last_archived ch d
     | inr page =>
         (forall m, In m page ->
            In (ts m) (map message_id (messages (snd (schedule_archiving cl faults d))))) /\
         (forall m, In m page ->
            ~ In (ts m) (map message_id (messages d)) ->
            (forall ch' page',
               In ch' (map channel_id (channels d)) -> ch' <> ch ->
               conversations_history cl ch' (oldest_of (cursor_of ch' d)) = inr page' ->
               ~ In (ts m) (map ts page')) ->
            exists m', In m' page /\ ts m' = ts m /\
              In (mk_message (ts m) ch (ts m)
                    (or_default (m_user m') "N/A") (or_default (m_text m') ""))
                 (messages (snd (schedule_archiving cl faults d)))) /\
         select_last_archived ch (snd (schedule_archiving cl faults d))
         = match page with
           | m0 :: _ => Some (Some (ts m0))
           | [] => select_last_archived ch d
           end
     end).
Proof.
  intros R Hf. unfold schedule_archiving.
  pose proof (select_channel_ids_nodup d
                (inv_channel_ids d (reachable_invariant d R))) as ND.
  destruct (archive_all_no_fault cl faults (select_channel_ids d) Hf ND d)
    as [H1 [_ [_ H4]]].
  { intros ch Hin. apply select_registered. now apply select_channel_ids_In. }
  destruct (archive_all_rows cl faults (select_channel_ids d) Hf ND d) as [new [E F]].
  assert (F' : Forall (fun r => exists ch page m,
               In ch (map channel_id (channels d)) /\
               conversations_history cl ch (oldest_of (cursor_of ch d)) = inr page /\
               In m page /\ ~ In (ts m) (map message_id (messages d)) /\
               r = mk_message (ts m) ch (ts m)
                     (or_default (m_user m) "N/A") (or_default (m_text m) "")) new).
  { eapply Forall_impl; [|exact F]. intros r [ch [page [m [Hin Hrest]]]].
    exists ch, page, m. split; [now apply select_channel_ids_In | exact Hrest]. }
  split; [exact H1|]. split; [now exists new|].
  intros ch Hin. specialize (H4 ch (proj2 (select_channel_ids_In ch d) Hin)).
  destruct (conversations_history cl ch (oldest_of (cursor_of ch d)))
    as [e | page] eqn:Hp; [exact H4|].
  destruct H4 as [Ha Hb].
  assert (Hids : forall m, In m page ->
            In (ts m) (map message_id
                         (messages (snd (archive_all cl faults (select_channel_ids d) d))))).
  { intros m Hm. apply has_message_id_In. now apply Ha. }
  split; [exact Hids|]. split.
  - intros m Hm Hnew Hothers.
    pose proof (Hids m Hm) as Hid. apply in_map_iff in Hid.
    destruct Hid as [r [Hr Hin_r]]. rewrite E in Hin_r.
    apply in_app_or in Hin_r. destruct Hin_r as [Hold | Hnw].
    { exfalso. apply Hnew. rewrite <- Hr. now apply in_map. }
    rewrite Forall_forall in F'.
    destruct (F' r Hnw) as [ch' [page' [m' [Hc' [Hp' [Hm' [_ Heq]]]]]]].
    subst r. cbn [message_id] in Hr.
    destruct (String.eqb_spec ch' ch) as [-> | N].
    + rewrite Hp in Hp'. injection Hp' as <-.
      exists m'. split; [exact Hm'|]. split; [exact Hr|].
      rewrite E. apply in_or_app. right. rewrite <- Hr. exact Hnw.
    + exfalso. apply (Hothers ch' page' Hc' N Hp').
      rewrite <- Hr. now apply in_map.
  - rewrite Hb. unfold cursor_after.
    destruct (select_last_archived ch d) eqn:Es.
    + now destruct page.
    + exfalso. apply (proj2 (select_registered ch d) Hin). exact Es.
Qed.

Lemma schedule_survives_slack_errors_witness :
  fst (schedule_archiving (flaky_client ["A"] [sample_message "100"])
         (fun _ => no_faults) two_channel_db) = inr tt /\
  (exists new,
     messages (snd (schedule_archiving (flaky_client ["A"] [sample_message "100"])
                      (fun _ => no_faults) two_channel_db))
     = messages two_channel_db ++ new /\
     Forall (fun r => exists ch page m,
               In ch (map channel_id (channels two_channel_db)) /\
               conversations_history (flaky_client ["A"] [sample_message "100"]) ch
                 (oldest_of (cursor_of ch two_channel_db)) = inr page /\
               In m page /\ ~ In (ts m) (map message_id (messages two_channel_db)) /\
               r = mk_message (ts m) ch (ts m)
                     (or_default (m_user m) "N/A") (or_default (m_text m) ""))
            new) /\
  (forall ch, In ch (map channel_id (channels two_channel_db)) ->
     match conversations_history (flaky_client ["A"] [sample_message "100"]) ch
             (oldest_of (cursor_of ch two_channel_db)) with
     | inl _ =>
         select_last_archived ch
           (snd (schedule_archiving (flaky_client ["A"] [sample_message "100"])
                   (fun _ => no_faults) two_channel_db))
         = select_last_archived ch two_channel_db
     | inr page =>
         (forall m, In m page ->
            In (ts m)
               (map message_id
                  (messages (snd (schedule_archiving
                                    (flaky_client ["A"] [sample_message "100"])
                                    (fun _ => no_faults) two_channel_db))))) /\
         (forall m, In m page ->
            ~ In (ts m) (map message_id (messages two_channel_db)) ->
            (forall ch' page',
               In ch' (map channel_id (channels two_channel_db)) -> ch' <> ch ->
               conversations_history (flaky_client ["A"] [sample_message "100"]) ch'
                 (oldest_of (cursor_of ch' two_channel_db)) = inr page' ->
               ~ In (ts m) (map ts page')) ->
            exists m', In m' page /\ ts m' = ts m /\
              In (mk_message (ts m) ch (ts m)
                    (or_default (m_user m') "N/A") (or_default (m_text m') ""))
                 (messages (snd (schedule_archiving
                                   (flaky_client ["A"] [sample_message "100"])
                                   (fun _ => no_faults) two_channel_db)))) /\
         select_last_archived ch
           (snd (schedule_archiving (flaky_client ["A"] [sample_message "100"])
                   (fun _ => no_faults) two_channel_db))
         = match page with
           | m0 :: _ => Some (Some (ts m0))
           | [] => select_last_archived ch two_channel_db
           end
     end).
Proof.
  exact (schedule_survives_slack_errors (flaky_client ["A"] [sample_message "100"])
           (fun _ => no_faults) two_channel_db two_channel_db_reachable
           (fun _ _ => eq_refl)).
Defined.

Example schedule_visits_in_id_order :
  select_channel_ids
    (mk_db [mk_channel "B" "random" None; mk_channel "A" "general" None] [])
  = ["A"; "B"] /\
  schedule_archiving (constant_client [sample_message "100"]) (fun _ => no_faults)
    (mk_db [mk_channel "B" "random" None; mk_channel "A" "general" None] [])
  = (inr tt,
     mk_db [mk_channel "B" "random" (Some "100"); mk_channel "A" "general" (Some "100")]
           [mk_message "100" "A" "100" "U1" "hello"]).
Proof. split; reflexivity. Qed.

Example schedule_skips_broken_channel :
  schedule_archiving (flaky_client ["A"] [sample_message "100"])
    (fun _ => no_faults) two_channel_db
  = (inr tt,
     mk_db [mk_channel "A" "general" None; mk_channel "B" "random" (Some "100")]
           [mk_message "100" "B" "100" "U1" "hello"]).
Proof. reflexivity. Qed.

(** C10: querying is total over channel ids.  For a channel id under which
    no message row is stored, registered or not, and for integer arguments
    that SQLite can bind, [get_channel_messages] returns the empty list. *)
Theorem get_channel_messages_empty d ch limit offset :
  fits_int64 limit = true ->
  fits_int64 offset = true ->
  (forall r, In r (messages d) -> msg_channel_id r <> ch) ->
  get_channel_messages d ch limit offset = inr [].
Proof.
  intros Hl Ho Hno. unfold get_channel_messages, select_channel_messages.
  rewrite Hl, Ho. cbn [andb].
  assert (filter (fun r => msg_channel_id r =? ch) (messages d) = []) as ->.
  { induction (messages d) as [|r l IH]; [reflexivity|].
    cbn [filter]. destruct (msg_channel_id r =? ch) eqn:E.
    - apply String.eqb_eq in E. exfalso. apply (Hno r); [now left | exact E].
    - apply IH. intros r' Hin. apply Hno. now right. }
  cbn [order_by_timestamp fold_left]. now rewrite limit_offset_nil.
Qed.

Lemma get_channel_messages_empty_witness :
  get_channel_messages archived_A "never-registered" 100 0 = inr [].
Proof.
  refine (get_channel_messages_empty archived_A "never-registered" 100 0
            eq_refl eq_refl _).
  intros r [<- | []]. discriminate.
Defined.

(** * Further properties of the archiver *)

(** ** Outcomes of the two writing operations *)

Lemma archive_cases cl faults ch d :
  archive_channel_messages cl faults ch d = (inr tt, d) \/
  archive_channel_messages cl faults ch d = (inl SqliteError, d) \/
  exists m0 rest,
    conversations_history cl ch (oldest_of (cursor_of ch d)) = inr (m0 :: rest) /\
    archive_channel_messages cl faults ch d
    = (inr tt, committed_page ch (m0 :: rest) d).
Proof.
  rewrite archive_run.
  destruct (conversations_history cl ch _) as [e | [|m0 rest]]; auto.
  destruct (fault_within _ _ _); auto.
  right. right. exists m0, rest. auto.
Qed.

Lemma add_channel_cases cl faults ch d :
  add_channel_to_archive cl faults ch d = (inr tt, d) \/
  add_channel_to_archive cl faults ch d = (inl SqliteError, d) \/
  exists name,
    conversations_info cl ch = inr name /\
    add_channel_to_archive cl faults ch d
    = (inr tt, insert_or_replace_channel (mk_channel ch name None) d).
Proof.
  rewrite add_channel_run.
  destruct (conversations_info cl ch) as [e | name]; auto.
  destruct (faults 0 || faults 1); auto.
  right. right. exists name. auto.
Qed.

(** X1: [archive_channel_messages] never lets a Slack error escape: under
    every client and fault schedule it returns normally or raises the
    storage error, and when the history request raises it returns normally
    and leaves the database as it was. *)
Theorem archive_swallows_slack_errors cl faults ch d :
  (fst (archive_channel_messages cl faults ch d) = inr tt \/
   fst (archive_channel_messages cl faults ch d) = inl SqliteError) /\
  (forall e, conversations_history cl ch (oldest_of (cursor_of ch d)) = inl e ->
             archive_channel_messages cl faults ch d = (inr tt, d)).
Proof.
  split.
  - destruct (archive_cases cl faults ch d) as [E | [E | [m0 [rest [_ E]]]]];
      rewrite E; auto.
  - intros e H. rewrite archive_run, H. reflexivity.
Qed.

(** X2: registration is all or nothing.  A channel id the Slack client
    cannot resolve is not registered and no exception is raised; otherwise
    either a storage error is raised and the database is unchanged, or the
    channels table is the old one without the rows of that id, followed by
    the one new row, and the messages table is untouched. *)
Theorem add_channel_all_or_nothing cl faults ch d :
  match conversations_info cl ch with
  | inl _ => add_channel_to_archive cl faults ch d = (inr tt, d)
  | inr name =>
      add_channel_to_archive cl faults ch d = (inl SqliteError, d) \/
      (fst (add_channel_to_archive cl faults ch d) = inr tt /\
       channels (snd (add_channel_to_archive cl faults ch d))
       = filter (fun r => negb (channel_id r =? ch)) (channels d)
         ++ [mk_channel ch name None] /\
       messages (snd (add_channel_to_archive cl faults ch d)) = messages d)
  end.
Proof.
  rewrite add_channel_run.
  destruct (conversations_info cl ch) as [e | name]; [reflexivity|].
  destruct (faults 0 || faults 1); [now left|].
  right. repeat split.
Qed.

(** ** What no sequence of operations undoes *)

Lemma archive_appends cl faults ch d :
  exists l, messages (snd (archive_channel_messages cl faults ch d)) = messages d ++ l.
Proof.
  destruct (archive_cases cl faults ch d) as [E | [E | [m0 [rest [_ E]]]]];
    rewrite E; cbn [snd].
  - exists []. now rewrite app_nil_r.
  - exists []. now rewrite app_nil_r.
  - rewrite committed_messages.
    destruct (store_page_grows ch (m0 :: rest) d) as [l [H _]]. now exists l.
Qed.

Lemma add_channel_messages cl faults ch d :
  messages (snd (add_channel_to_archive cl faults ch d)) = messages d.
Proof.
  destruct (add_channel_cases cl faults ch d) as [E | [E | [name [_ E]]]];
    rewrite E; reflexivity.
Qed.

Lemma archive_channel_ids cl faults ch d :
  map channel_id (channels (snd (archive_channel_messages cl faults ch d)))
  = map channel_id (channels d).
Proof.
  destruct (archive_cases cl faults ch d) as [E | [E | [m0 [rest [_ E]]]]];
    rewrite E; cbn [snd]; try reflexivity.
  apply committed_channel_ids.
Qed.

Lemma add_channel_keeps_registered cl faults ch d ch' :
  In ch' (select_channel_ids d) ->
  In ch' (select_channel_ids (snd (add_channel_to_archive cl faults ch d))).
Proof.
  intros Hin.
  destruct (add_channel_cases cl faults ch d) as [E | [E | [name [_ E]]]];
    rewrite E; cbn [snd]; try exact Hin.
  apply select_channel_ids_In in Hin. apply select_channel_ids_In.
  apply select_registered.
  destruct (String.eqb_spec ch' ch) as [-> | N].
  - rewrite select_after_replace_same. discriminate.
  - rewrite select_after_replace_other by exact N. now apply select_registered.
Qed.

Lemma evolves_appends d d' :
  evolves d d' -> exists l, messages d' = messages d ++ l.
Proof.
  induction 1 as [d | cl faults ch d d' _ [l IH] | cl faults ch d d' _ [l IH]].
  - exists []. now rewrite app_nil_r.
  - exists l. now rewrite add_channel_messages.
  - destruct (archive_appends cl faults ch d') as [l' E].
    exists (l ++ l'). now rewrite E, IH, app_assoc.
Qed.

(** X3: stored messages are never deleted or altered.  Whatever sequence of
    registrations and archiving calls is run, with whatever client answers
    and storage faults, the messages table afterwards is the table before
    with rows appended. *)
Theorem messages_are_append_only d d' :
  evolves d d' -> exists l, messages d' = messages d ++ l.
Proof. apply evolves_appends. Qed.

Lemma messages_are_append_only_witness :
  exists l,
    messages (snd (add_channel_to_archive (constant_client []) no_faults "C1"
                     (snd (archive_channel_messages
                             (constant_client [sample_message "300"])
                             (fault_at 5) "C1" archived_two))))
    = messages archived_two ++ l.
Proof.
  exact (messages_are_append_only archived_two _
           (evolves_add (constant_client []) no_faults "C1" _ _
              (evolves_archive (constant_client [sample_message "300"])
                 (fault_at 5) "C1" _ _ (evolves_refl archived_two)))).
Defined.

(** X4: a registered channel is never deregistered: after any sequence of
    registrations and archiving calls every channel id that had a row in the
    channels table still has one. *)
Theorem channels_stay_registered d d' :
  evolves d d' ->
  forall ch, In ch (select_channel_ids d) -> In ch (select_channel_ids d').
Proof.
  induction 1 as [d | cl faults ch0 d d' _ IH | cl faults ch0 d d' _ IH];
    intros ch Hin.
  - exact Hin.
  - apply add_channel_keeps_registered. now apply IH.
  - apply select_channel_ids_In. rewrite archive_channel_ids.
    apply select_channel_ids_In. now apply IH.
Qed.

Lemma channels_stay_registered_witness :
  In "A" (select_channel_ids
            (snd (add_channel_to_archive (constant_client []) (fault_at 1) "B"
                    (snd (archive_channel_messages
                            (constant_client [sample_message "300"])
                            no_faults "A" two_channel_db))))).
Proof.
  exact (channels_stay_registered two_channel_db _
           (evolves_add (constant_client []) (fault_at 1) "B" _ _
              (evolves_archive (constant_client [sample_message "300"])
                 no_faults "A" _ _ (evolves_refl two_channel_db)))
           "A" (or_introl eq_refl)).
Defined.

(** ** What archiving touches in the channels table *)

Lemma update_channel_names t ch d :
  map channel_name (channels (update_last_archived t ch d))
  = map channel_name (channels d).
Proof.
  unfold update_last_archived. cbn [channels]. rewrite map_map.
  apply map_ext. intros r. now destruct (channel_id r =? ch).
Qed.

Lemma archive_channel_names cl faults ch d :
  map channel_name (channels (snd (archive_channel_messages cl faults ch d)))
  = map channel_name (channels d).
Proof.
  destruct (archive_cases cl faults ch d) as [E | [E | [m0 [rest [_ E]]]]];
    rewrite E; cbn [snd]; try reflexivity.
  unfold committed_page. now rewrite update_channel_names, store_page_channels.
Qed.

(** X5: archiving a channel writes nothing but that channel's cursor into
    the channels table: under every client and fault schedule the channel
    ids and the display names stay as they were, row by row, and the cursor
    of every other channel is unchanged. *)
Theorem archive_touches_own_cursor_only cl faults ch d :
  map channel_id (channels (snd (archive_channel_messages cl faults ch d)))
  = map channel_id (channels d) /\
  map channel_name (channels (snd (archive_channel_messages cl faults ch d)))
  = map channel_name (channels d) /\
  (forall ch', ch' <> ch ->
     select_last_archived ch' (snd (archive_channel_messages cl faults ch d))
     = select_last_archived ch' d).
Proof.
  split; [apply archive_channel_ids|]. split; [apply archive_channel_names|].
  intros ch' N.
  destruct (archive_cases cl faults ch d) as [E | [E | [m0 [rest [_ E]]]]];
    rewrite E; cbn [snd]; try reflexivity.
  now apply committed_cursor_other.
Qed.

(** X6: a cursor always names a stored message.  In every reachable
    database, whenever the cursor column of a channel holds a value, the
    messages table has a row with that value as its [message_id]. *)
Theorem cursor_names_a_stored_message d :
  reachable d ->
  forall ch c,
    select_last_archived ch d = Some (Some c) ->
    has_message_id c (messages d) = true.
Proof.
  induction 1 as [| cl faults ch0 d R IH | cl faults ch0 d R IH]; intros ch c H.
  - discriminate H.
  - rewrite add_channel_messages.
    destruct (add_channel_cases cl faults ch0 d) as [E | [E | [name [_ E]]]];
      rewrite E in H; cbn [snd] in H; try (now apply (IH ch)).
    destruct (String.eqb_spec ch ch0) as [-> | N].
    + rewrite select_after_replace_same in H. discriminate H.
    + rewrite select_after_replace_other in H by exact N. now apply (IH ch).
  - destruct (archive_cases cl faults ch0 d) as [E | [E | [m0 [rest [_ E]]]]];
      rewrite E in *; cbn [snd] in *; try (now apply (IH ch)).
    rewrite committed_messages.
    destruct (String.eqb_spec ch ch0) as [-> | N].
    + rewrite committed_cursor_same in H.
      destruct (select_last_archived ch0 d); [|discriminate H].
      injection H as <-. apply store_page_has. now left.
    + rewrite committed_cursor_other in H by exact N.
      apply store_page_keeps. now apply (IH ch).
Qed.

Lemma cursor_names_a_stored_message_witness :
  has_message_id "200" (messages archived_two) = true.
Proof.
  exact (cursor_names_a_stored_message archived_two
           (reach_archive (constant_client [sample_message "200"; sample_message "100"])
              no_faults "C1" _ one_channel_db_reachable)
           "C1" "200" eq_refl).
Defined.

(** ** Fetching the same page again *)

Lemma update_last_archived_twice t ch d :
  update_last_archived t ch (update_last_archived t ch d) = update_last_archived t ch d.
Proof.
  unfold update_last_archived. cbn [channels messages]. f_equal.
  rewrite map_map. apply map_ext. intros r.
  destruct (channel_id r =? ch) eqn:E; cbn [channel_id]; now rewrite E.
Qed.

Lemma committed_page_twice ch page d :
  committed_page ch page (committed_page ch page d) = committed_page ch page d.
Proof.
  destruct page as [|m0 rest]; [reflexivity|].
  unfold committed_page.
  rewrite (store_page_noop ch (m0 :: rest)
             (update_last_archived (ts m0) ch (store_page ch (m0 :: rest) d))).
  - apply update_last_archived_twice.
  - intros m Hin. cbn [update_last_archived messages]. now apply store_page_has.
Qed.

(** X7: fetching the same page again changes nothing.  If a call fetched
    [page] and returned normally, then any later call on the resulting
    database whose history request is answered with the same [page] leaves
    that database exactly as it is, whether it commits or is rolled back:
    the rows are dropped as duplicates and the cursor is rewritten with the
    value it has. *)
Theorem refetching_a_page_changes_nothing cl cl' faults faults' ch d page :
  conversations_history cl ch (oldest_of (cursor_of ch d)) = inr page ->
  fst (archive_channel_messages cl faults ch d) = inr tt ->
  conversations_history cl' ch
    (oldest_of (cursor_of ch (snd (archive_channel_messages cl faults ch d))))
  = inr page ->
  snd (archive_channel_messages cl' faults' ch
         (snd (archive_channel_messages cl faults ch d)))
  = snd (archive_channel_messages cl faults ch d).
Proof.
  intros Hp. rewrite (archive_run cl faults ch d), Hp.
  destruct page as [|m0 rest].
  - cbn [fst snd]. intros _ Hp'. now rewrite archive_run, Hp'.
  - destruct (fault_within faults _ _); [discriminate|].
    cbn [fst snd]. intros _ Hp'. rewrite archive_run, Hp'.
    destruct (fault_within faults' _ _); [reflexivity|].
    cbn [snd]. apply committed_page_twice.
Qed.

Lemma refetching_a_page_changes_nothing_witness :
  snd (archive_channel_messages
         (constant_client [sample_message "200"; sample_message "100"]) (fault_at 7) "C1"
         (snd (archive_channel_messages
                 (constant_client [sample_message "200"; sample_message "100"])
                 no_faults "C1" one_channel_db)))
  = snd (archive_channel_messages
           (constant_client [sample_message "200"; sample_message "100"])
           no_faults "C1" one_channel_db).
Proof.
  exact (refetching_a_page_changes_nothing
           (constant_client [sample_message "200"; sample_message "100"])
           (constant_client [sample_message "200"; sample_message "100"])
           no_faults (fault_at 7) "C1" one_channel_db
           [sample_message "200"; sample_message "100"] eq_refl eq_refl eq_refl).
Defined.

(** ** Reading the archive *)

Lemma select_channel_messages_In ch d r :
  In r (select_channel_messages ch d) <-> In r (messages d) /\ msg_channel_id r = ch.
Proof.
  unfold select_channel_messages. split.
  - intros H. apply (Permutation_in _ (order_by_timestamp_perm _)) in H.
    apply filter_In in H. destruct H as [H1 H2]. apply String.eqb_eq in H2. auto.
  - intros [H1 H2].
    apply (Permutation_in _ (Permutation_sym (order_by_timestamp_perm _))).
    apply filter_In. split; [exact H1 | now apply String.eqb_eq].
Qed.

Lemma limit_offset_incl {A} limit offset (l : list A) x :
  In x (limit_offset limit offset l) -> In x l.
Proof.
  unfold limit_offset. intros H.
  assert (Hs : forall y, In y (skipn (Z.to_nat offset) l) -> In y l).
  { intros y Hy. rewrite <- (firstn_skipn (Z.to_nat offset) l).
    apply in_or_app. now right. }
  destruct (limit <? 0)%Z; [now apply Hs|].
  apply Hs. rewrite <- (firstn_skipn (Z.to_nat limit) (skipn (Z.to_nat offset) l)).
  apply in_or_app. now left.
Qed.

Lemma get_channel_messages_inr d ch limit offset rows :
  get_channel_messages d ch limit offset = inr rows ->
  fits_int64 limit = true /\ fits_int64 offset = true /\
  rows = map dict_of_row (limit_offset limit offset (select_channel_messages ch d)).
Proof.
  unfold get_channel_messages.
  destruct (fits_int64 limit); [|discriminate].
  destruct (fits_int64 offset); [|discriminate].
  cbn [andb]. intros H. injection H as <-. auto.
Qed.

(** X8: a query serves only what is stored for the channel asked for: every
    dictionary it returns is built from a row of the messages table whose
    [channel_id] is the requested one. *)
Theorem query_serves_stored_rows_of_the_channel d ch limit offset rows x :
  get_channel_messages d ch limit offset = inr rows ->
  In x rows ->
  exists r, In r (messages d) /\ msg_channel_id r = ch /\ x = dict_of_row r.
Proof.
  intros H Hin. apply get_channel_messages_inr in H. destruct H as [_ [_ ->]].
  apply in_map_iff in Hin. destruct Hin as [r [<- Hr]].
  apply limit_offset_incl, select_channel_messages_In in Hr.
  exists r. tauto.
Qed.

Lemma query_serves_stored_rows_of_the_channel_witness :
  exists r, In r (messages archived_A) /\ msg_channel_id r = "A" /\
            mk_dict "100" "100" "U1" "hello" = dict_of_row r.
Proof.
  exact (query_serves_stored_rows_of_the_channel archived_A "A" 100 0
           [mk_dict "100" "100" "U1" "hello"] (mk_dict "100" "100" "U1" "hello")
           eq_refl (or_introl eq_refl)).
Defined.

(** X9: a non-negative [limit] bounds the answer: the query returns at most
    [limit] messages. *)
Theorem query_respects_limit d ch limit offset rows :
  (0 <= limit)%Z ->
  get_channel_messages d ch limit offset = inr rows ->
  (Z.of_nat (List.length rows) <= limit)%Z.
Proof.
  intros Hl H. apply get_channel_messages_inr in H. destruct H as [_ [_ ->]].
  rewrite length_map. unfold limit_offset.
  destruct (limit <? 0)%Z eqn:E; [apply Z.ltb_lt in E; lia|].
  pose proof (firstn_le_length (Z.to_nat limit)
                (skipn (Z.to_nat offset) (select_channel_messages ch d))).
  lia.
Qed.

Lemma query_respects_limit_witness :
  (Z.of_nat (List.length [mk_dict "100" "100" "U1" "hello"]) <= 1)%Z.
Proof.
  refine (query_respects_limit archived_two "C1" 1 0
            [mk_dict "100" "100" "U1" "hello"] _ eq_refl).
  lia.
Defined.

(** X10: pages tile the listing.  For a non-negative [offset] and [limit],
    the page of [limit] messages at [offset] followed by everything from
    [offset + limit] on is everything from [offset] on. *)
Theorem query_pages_tile d ch limit offset page rest :
  (0 <= limit)%Z ->
  (0 <= offset)%Z ->
  get_channel_messages d ch limit offset = inr page ->
  get_channel_messages d ch (-1) (offset + limit) = inr rest ->
  get_channel_messages d ch (-1) offset = inr (page ++ rest).
Proof.
  intros Hl Ho H1 H2.
  apply get_channel_messages_inr in H1. destruct H1 as [_ [Fo ->]].
  apply get_channel_messages_inr in H2. destruct H2 as [_ [_ ->]].
  unfold get_channel_messages. rewrite Fo. cbn [fits_int64 andb].
  replace (fits_int64 (-1)) with true by reflexivity. cbn [andb]. f_equal.
  rewrite <- map_app. f_equal. unfold limit_offset.
  replace (-1 <? 0)%Z with true by reflexivity.
  destruct (limit <? 0)%Z eqn:E; [apply Z.ltb_lt in E; lia|].
  rewrite Z2Nat.inj_add by lia.
  rewrite (Nat.add_comm (Z.to_nat offset)), <- skipn_skipn.
  symmetry. apply firstn_skipn.
Qed.

Lemma query_pages_tile_witness :
  get_channel_messages archived_two "C1" (-1) 0
  = inr ([mk_dict "100" "100" "U1" "hello"] ++ [mk_dict "200" "200" "U1" "hello"]).
Proof.
  refine (query_pages_tile archived_two "C1" 1 0
            [mk_dict "100" "100" "U1" "hello"] [mk_dict "200" "200" "U1" "hello"]
            _ _ eq_refl eq_refl); lia.
Defined.

Lemma nodup_limit_offset {A} limit offset (l : list A) :
  NoDup l -> NoDup (limit_offset limit offset l).
Proof.
  intros ND. unfold limit_offset.
  assert (NS : NoDup (skipn (Z.to_nat offset) l)).
  { rewrite <- (firstn_skipn (Z.to_nat offset) l) in ND.
    now apply NoDup_app_remove_l in ND. }
  destruct (limit <? 0)%Z; [exact NS|].
  rewrite <- (firstn_skipn (Z.to_nat limit) (skipn (Z.to_nat offset) l)) in NS.
  now apply NoDup_app_remove_r in NS.
Qed.

Lemma limit_offset_map {A B} (f : A -> B) limit offset l :
  map f (limit_offset limit offset l) = limit_offset limit offset (map f l).
Proof.
  unfold limit_offset. destruct (limit <? 0)%Z.
  - symmetry. apply skipn_map.
  - now rewrite skipn_map, firstn_map.
Qed.

(** X11: a query never serves a message twice: in every reachable database
    the dictionaries of one answer have pairwise different [message_id]s. *)
Theorem query_has_no_duplicates d ch limit offset rows :
  reachable d ->
  get_channel_messages d ch limit offset = inr rows ->
  NoDup (map d_message_id rows).
Proof.
  intros R H. apply get_channel_messages_inr in H. destruct H as [_ [_ ->]].
  rewrite map_map.
  change (fun x => d_message_id (dict_of_row x)) with message_id.
  rewrite limit_offset_map. apply nodup_limit_offset.
  unfold select_channel_messages.
  eapply Permutation_NoDup.
  - apply Permutation_map. symmetry. apply order_by_timestamp_perm.
  - apply nodup_map_filter. apply (inv_message_ids d (reachable_invariant d R)).
Qed.

Lemma query_has_no_duplicates_witness :
  NoDup (map d_message_id
           [mk_dict "100" "100" "U1" "hello"; mk_dict "200" "200" "U1" "hello"]).
Proof.
  exact (query_has_no_duplicates archived_two "C1" 100 0
           [mk_dict "100" "100" "U1" "hello"; mk_dict "200" "200" "U1" "hello"]
           (reach_archive (constant_client [sample_message "200"; sample_message "100"])
              no_faults "C1" _ one_channel_db_reachable)
           eq_refl).
Defined.

(** ** From a fetched message to a served one *)

Lemma has_message_id_false_In id rows r :
  has_message_id id rows = false -> In r rows -> message_id r <> id.
Proof.
  intros H Hin Heq.
  assert (has_message_id id rows = true) as T.
  { apply has_message_id_In. rewrite <- Heq. now apply in_map. }
  congruence.
Qed.

(** X12: what is archived can be read back.  If a call for channel [ch]
    fetched [page] and returned normally, then for every message of the
    page whose [ts] was not stored before, the unbounded query for [ch]
    afterwards serves a dictionary built from a message of the page with
    that [ts]: its [message_id] and [timestamp] are the [ts], its [user] is
    the message's user or ['N/A'], its [text] the message's text or the
    empty string. *)
Theorem archived_message_is_served cl faults ch d page m :
  conversations_history cl ch (oldest_of (cursor_of ch d)) = inr page ->
  fst (archive_channel_messages cl faults ch d) = inr tt ->
  In m page ->
  has_message_id (ts m) (messages d) = false ->
  exists m' rows,
    In m' page /\ ts m' = ts m /\
    get_channel_messages (snd (archive_channel_messages cl faults ch d)) ch (-1) 0
    = inr rows /\
    In (mk_dict (ts m) (ts m) (or_default (m_user m') "N/A") (or_default (m_text m') ""))
       rows.
Proof.
  intros Hp. rewrite archive_run, Hp.
  destruct page as [|m0 rest]; [intros _ []|].
  destruct (fault_within _ _ _); [discriminate|].
  cbn [fst snd]. intros _ Hin Hnew.
  set (page := m0 :: rest) in *.
  destruct (store_page_grows ch page d) as [l [E [F _]]].
  pose proof (store_page_has ch page d m Hin) as Hs.
  apply has_message_id_In, in_map_iff in Hs. destruct Hs as [r [Hid Hr]].
  rewrite E in Hr. apply in_app_or in Hr. destruct Hr as [Hr | Hr].
  { exfalso. exact (has_message_id_false_In _ _ _ Hnew Hr Hid). }
  rewrite Forall_forall in F. destruct (F r Hr) as [m' [Hm' ->]].
  cbn [row_of_message message_id] in Hid.
  exists m'. eexists. split; [exact Hm'|]. split; [exact Hid|].
  split; [reflexivity|].
  unfold limit_offset. cbn [Z.ltb Z.compare Z.to_nat skipn].
  apply in_map_iff. exists (row_of_message ch m'). split.
  - unfold dict_of_row. cbn. now rewrite Hid.
  - apply select_channel_messages_In. split; [|reflexivity].
    rewrite committed_messages, E. apply in_or_app. right.
    revert Hr. unfold page. intros Hr. exact Hr.
Qed.

Lemma archived_message_is_served_witness :
  exists m' rows,
    In m' [mk_slack_message "300" None None] /\
    ts m' = "300" /\
    get_channel_messages
      (snd (archive_channel_messages (constant_client [mk_slack_message "300" None None])
              no_faults "C1" archived_two)) "C1" (-1) 0
    = inr rows /\
    In (mk_dict "300" "300" (or_default (m_user m') "N/A") (or_default (m_text m') ""))
       rows.
Proof.
  exact (archived_message_is_served (constant_client [mk_slack_message "300" None None])
           no_faults "C1" archived_two [mk_slack_message "300" None None]
           (mk_slack_message "300" None None) eq_refl eq_refl (or_introl eq_refl) eq_refl).
Defined.

Example defaults_are_served :
  get_channel_messages
    (snd (archive_channel_messages (constant_client [mk_slack_message "300" None None])
            no_faults "C1" archived_two)) "C1" (-1) 0
  = inr [mk_dict "100" "100" "U1" "hello"; mk_dict "200" "200" "U1" "hello";
         mk_dict "300" "300" "N/A" ""].
Proof. reflexivity. Qed.

(** ** The archive-all run under any client and fault schedule *)

Lemma evolves_reachable d d' : evolves d d' -> reachable d -> reachable d'.
Proof.
  induction 1 as [d | cl faults ch d d' _ IH | cl faults ch d d' _ IH]; intros R.
  - exact R.
  - apply reach_add. now apply IH.
  - apply reach_archive. now apply IH.
Qed.

Lemma archive_all_step cl faults ch rest d :
  archive_all cl faults (ch :: rest) d
  = match fst (archive_channel_messages cl (faults ch) ch d) with
    | inl e => (inl e, snd (archive_channel_messages cl (faults ch) ch d))
    | inr _ => archive_all cl faults rest
                 (snd (archive_channel_messages cl (faults ch) ch d))
    end.
Proof.
  cbn [archive_all].
  now destruct (archive_channel_messages cl (faults ch) ch d) as [[e | u] d'].
Qed.

Lemma archive_all_safe cl faults chs :
  forall d,
  (fst (archive_all cl faults chs d) = inr tt \/
   fst (archive_all cl faults chs d) = inl SqliteError) /\
  evolves d (snd (archive_all cl faults chs d)) /\
  map channel_id (channels (snd (archive_all cl faults chs d)))
  = map channel_id (channels d) /\
  map channel_name (channels (snd (archive_all cl faults chs d)))
  = map channel_name (channels d).
Proof.
  induction chs as [|ch rest IH]; intros d.
  - cbn. split; [now left|]. split; [constructor|]. split; reflexivity.
  - rewrite archive_all_step.
    pose proof (archive_channel_ids cl (faults ch) ch d) as Hi.
    pose proof (archive_channel_names cl (faults ch) ch d) as Hn.
    pose proof (evolves_archive cl (faults ch) ch d d (evolves_refl d)) as He.
    destruct (archive_cases cl (faults ch) ch d) as [E | [E | [m0 [rs [_ E]]]]];
      rewrite E in *; cbn [fst snd] in *.
    + exact (IH d).
    + split; [now right|]. split; [constructor|]. split; reflexivity.
    + destruct (IH (committed_page ch (m0 :: rs) d)) as [O [Ev [I N]]].
      split; [exact O|]. split; [|split].
      * clear - He Ev. induction Ev as [d1 | ? ? ? ? ? _ IHe | ? ? ? ? ? _ IHe].
        -- exact He.
        -- apply evolves_add. now apply IHe.
        -- apply evolves_archive. now apply IHe.
      * now rewrite I.
      * now rewrite N.
Qed.

(** X13: an archive-all run is safe under every client and every storage
    fault schedule: it returns normally or raises the storage error, never a
    Slack error; it only appends rows to the messages table; it leaves the
    channel ids and display names as they were, row by row; and it takes a
    reachable database to a reachable one. *)
Theorem schedule_archiving_is_safe cl faults d :
  (fst (schedule_archiving cl faults d) = inr tt \/
   fst (schedule_archiving cl faults d) = inl SqliteError) /\
  (exists l, messages (snd (schedule_archiving cl faults d)) = messages d ++ l) /\
  map channel_id (channels (snd (schedule_archiving cl faults d)))
  = map channel_id (channels d) /\
  map channel_name (channels (snd (schedule_archiving cl faults d)))
  = map channel_name (channels d) /\
  (reachable d -> reachable (snd (schedule_archiving cl faults d))).
Proof.
  unfold schedule_archiving.
  destruct (archive_all_safe cl faults (select_channel_ids d) d) as [O [Ev [I N]]].
  split; [exact O|]. split; [now apply evolves_appends|].
  split; [exact I|]. split; [exact N|].
  now apply evolves_reachable.
Qed.

(** X14: the keys the program relies on hold in every reachable database:
    no two rows of the channels table share a [channel_id], and in every row
    of the messages table the [timestamp] column equals the [message_id]. *)
Theorem reachable_keys d :
  reachable d ->
  NoDup (map channel_id (channels d)) /\
  Forall (fun r => timestamp r = message_id r) (messages d).
Proof.
  intros R. destruct (reachable_invariant d R) as [_ I2 I3]. auto.
Qed.

Lemma reachable_keys_witness :
  NoDup (map channel_id (channels archived_A)) /\
  Forall (fun r => timestamp r = message_id r) (messages archived_A).
Proof.
  exact (reachable_keys archived_A
           (reach_archive (constant_client [sample_message "100"]) no_faults "A" _
              two_channel_db_reachable)).
Defined.

(** X15: what the archive serves once it serves for good.  After any
    sequence of registrations and archiving calls, with any client answers
    and storage faults, every dictionary the unbounded query for a channel
    returned before is still in its answer. *)
Theorem served_messages_stay_served d d' ch rows x :
  evolves d d' ->
  get_channel_messages d ch (-1) 0 = inr rows ->
  In x rows ->
  exists rows', get_channel_messages d' ch (-1) 0 = inr rows' /\ In x rows'.
Proof.
  intros Ev H Hin. apply get_channel_messages_inr in H. destruct H as [_ [_ ->]].
  eexists. split; [reflexivity|].
  unfold limit_offset in *. cbn [Z.ltb Z.compare Z.to_nat skipn] in *.
  apply in_map_iff in Hin. destruct Hin as [r [<- Hr]].
  apply in_map. apply select_channel_messages_In in Hr. destruct Hr as [Hr Hc].
  apply select_channel_messages_In. split; [|exact Hc].
  destruct (evolves_appends d d' Ev) as [l E]. rewrite E.
  apply in_or_app. now left.
Qed.

Lemma served_messages_stay_served_witness :
  exists rows',
    get_channel_messages
      (snd (add_channel_to_archive (constant_client []) no_faults "C1"
              (snd (archive_channel_messages (constant_client [sample_message "050"])
                      no_faults "C1" archived_two)))) "C1" (-1) 0
    = inr rows' /\
    In (mk_dict "200" "200" "U1" "hello") rows'.
Proof.
  exact (served_messages_stay_served archived_two _ "C1"
           [mk_dict "100" "100" "U1" "hello"; mk_dict "200" "200" "U1" "hello"]
           (mk_dict "200" "200" "U1" "hello")
           (evolves_add (constant_client []) no_faults "C1" _ _
              (evolves_archive (constant_client [sample_message "050"])
                 no_faults "C1" _ _ (evolves_refl archived_two)))
           eq_refl (or_intror (or_introl eq_refl))).
Defined.
